(** * Nim over TCP: the game engine and the session driver of [examples/nim.py]

    The Python program keeps one [Nim] object (a list of pile sizes) and one
    asyncio stream pair per connection.  It is embedded here as functions in
    a small state-and-exception monad over a [world] record: the piles, the
    bytes written so far, what the peer will send, the random draws the
    [random] module will produce, and the interpreter's limit on the length
    of integer literals. *)

From stdpp Require Import base numbers list strings.
From Stdlib Require Import ZArith Lia Ascii DecimalString.
From Stdlib Require DecimalNat DecimalFacts.

Local Open Scope Z_scope.

(** ** Python values and effects *)

(** The exceptions the program can meet. *)
Inductive exn : Type :=
  | IndexError
  | AssertionError
  | ValueError
  | ConnectionResetError.

(** How a call ends: it returns, it raises, the task stays suspended on an
    [await] that is never resumed, or the loop budget of the model ran out
    (the Python loop is still running). *)
Inductive outcome (A : Type) : Type :=
  | Ok (a : A)
  | Raise (e : exn)
  | Suspended
  | OutOfFuel.
Arguments Ok {A} a.
Arguments Raise {A} e.
Arguments Suspended {A}.
Arguments OutOfFuel {A}.

(** Bytes objects are strings of 8-bit characters; [.encode()] of the ASCII
    text the program writes is the text itself. *)
Definition bytes : Type := string.

(** What [StreamReader.readline()] will do, call after call.  [Feed] is a
    line the stream delivers, which it does for a line within its limit of
    64 KiB ([start_server] is called without a limit of its own); then
    comes one of four ends.  At end of file asyncio returns the empty bytes
    object on every further call; a line above the limit makes the call
    raise a [ValueError]; a broken connection makes it raise (no handler of
    the program catches what it raises there, so one exception stands for
    all); a silent peer leaves the call suspended for ever. *)
Inductive reader : Type :=
  | Feed (line : bytes) (rest : reader)
  | AtEof
  | Overlong
  | Broken
  | Silent.

(** The generator behind the [random] module: [tape k] is the raw value of
    the [k]-th draw, [cursor] counts the draws made. *)
Record rng : Type := { tape : nat -> Z; cursor : nat }.

(** Everything one connection can see or change. *)
Record world : Type := {
  piles : list Z;          (* Nim._piles *)
  written : list bytes;    (* arguments of writer.write, oldest first *)
  input : reader;          (* what reader.readline will yield *)
  random : rng;            (* state of the random module *)
  closed : bool;           (* writer.close() was called *)
  max_str_digits : Z       (* sys.get_int_max_str_digits() *)
}.

Definition set_piles (l : list Z) (w : world) : world :=
  {| piles := l; written := written w; input := input w;
     random := random w; closed := closed w;
     max_str_digits := max_str_digits w |}.
Definition set_written (o : list bytes) (w : world) : world :=
  {| piles := piles w; written := o; input := input w;
     random := random w; closed := closed w;
     max_str_digits := max_str_digits w |}.
Definition set_input (r : reader) (w : world) : world :=
  {| piles := piles w; written := written w; input := r;
     random := random w; closed := closed w;
     max_str_digits := max_str_digits w |}.
Definition set_random (g : rng) (w : world) : world :=
  {| piles := piles w; written := written w; input := input w;
     random := g; closed := closed w;
     max_str_digits := max_str_digits w |}.
Definition set_closed (b : bool) (w : world) : world :=
  {| piles := piles w; written := written w; input := input w;
     random := random w; closed := b;
     max_str_digits := max_str_digits w |}.

(** The monad: a computation runs in a world and ends with an outcome and
    the world as it is at that moment (also when it raises). *)
Definition M (A : Type) : Type := world -> outcome A * world.

Definition ret {A} (a : A) : M A := fun w => (Ok a, w).
Definition raise {A} (e : exn) : M A := fun w => (Raise e, w).
Definition bind {A B} (c : M A) (k : A -> M B) : M B :=
  fun w =>
    match c w with
    | (Ok a, w') => k a w'
    | (Raise e, w') => (Raise e, w')
    | (Suspended, w') => (Suspended, w')
    | (OutOfFuel, w') => (OutOfFuel, w')
    end.

#[global] Instance M_ret : MRet M := @ret.
#[global] Instance M_bind : MBind M := fun A B k c => bind c k.

(** [for x in l: body x] *)
Fixpoint for_each {A} (l : list A) (body : A -> M unit) : M unit :=
  match l with
  | [] => ret tt
  | x :: l' => body x ;; for_each l' body
  end.

(** *** Lists *)

(** Python's index rule for a sequence of length [n]: [0 .. n-1] count from
    the front, [-n .. -1] from the back, anything else is an [IndexError]. *)
Definition py_index (n : nat) (i : Z) : option nat :=
  if (0 <=? i) && (i <? Z.of_nat n) then Some (Z.to_nat i)
  else if (- Z.of_nat n <=? i) && (i <? 0) then Some (Z.to_nat (Z.of_nat n + i))
  else None.

(** [self._piles[i]] *)
Definition getitem (i : Z) : M Z :=
  fun w =>
    match py_index (length (piles w)) i with
    | Some k =>
        match piles w !! k with
        | Some v => (Ok v, w)
        | None => (Raise IndexError, w)
        end
    | None => (Raise IndexError, w)
    end.

(** [self._piles[i] = v] *)
Definition setitem (i : Z) (v : Z) : M unit :=
  fun w =>
    match py_index (length (piles w)) i with
    | Some k => (Ok tt, set_piles (<[k := v]> (piles w)) w)
    | None => (Raise IndexError, w)
    end.

(** [len(self._piles)] *)
Definition len : M Z := fun w => (Ok (Z.of_nat (length (piles w))), w).

(** The builtin [sum]: start at [0] and add from the left. *)
Definition py_sum (l : list Z) : Z := fold_left Z.add l 0.

(** [[i for i, x in enumerate(l) if x > 0]], counting from [i]. *)
Fixpoint positive_indices (i : Z) (l : list Z) : list Z :=
  match l with
  | [] => []
  | x :: l' =>
      if x >? 0 then i :: positive_indices (i + 1) l'
      else positive_indices (i + 1) l'
  end.

(** *** The random module *)

(** [Random._randbelow(n)] for [n > 0]: some value in [0, n), here the next
    raw draw reduced modulo [n]. *)
Definition randbelow (n : Z) : M Z :=
  fun w =>
    let g := random w in
    (Ok (tape g (cursor g) mod n),
     set_random {| tape := tape g; cursor := S (cursor g) |} w).

(** [random.choice(seq)]: an [IndexError] on an empty sequence, else the
    element at a drawn position. *)
Definition choice (seq : list Z) : M Z :=
  match seq with
  | [] => raise IndexError
  | _ :: _ =>
      k ← randbelow (Z.of_nat (length seq));
      match seq !! Z.to_nat k with
      | Some x => ret x
      | None => raise IndexError
      end
  end.

(** [random.randint(a, b)]: a [ValueError] on an empty range, else
    [a + randbelow(b - a + 1)]. *)
Definition randint (a b : Z) : M Z :=
  if b - a + 1 >? 0 then k ← randbelow (b - a + 1); ret (a + k)
  else raise ValueError.

(** ** The game engine: class [Nim] *)

Module Nim.

(** [__init__]: piles of 3, 4 and 5 objects. *)
Definition init : list Z := [3; 4; 5].

(** [move_is_valid]: the three conjuncts of the [and] chain, tested from
    left to right, the later ones only when the earlier ones hold. *)
Definition move_is_valid (pile amount : Z) : M bool :=
  if amount >? 0 then
    n ← len;
    if pile <? n then
      v ← getitem pile;
      ret (v >=? amount)
    else ret false
  else ret false.

(** [play]: the assertion, then [self._piles[pile] -= amount]. *)
Definition play (pile amount : Z) : M unit :=
  ok ← move_is_valid pile amount;
  if ok : bool then
    v ← getitem pile;
    setitem pile (v - amount)
  else raise AssertionError.

(** [can_continue]: [sum(self._piles) != 0]. *)
Definition can_continue : M bool :=
  fun w => (Ok (negb (py_sum (piles w) =? 0)), w).

(** [random_move]: a pile among those that are not empty, then an amount
    between one and its size. *)
Definition random_move : M (Z * Z) :=
  fun w =>
    (pile ← choice (positive_indices 0 (piles w));
     v ← getitem pile;
     amount ← randint 1 v;
     ret (pile, amount)) w.

End Nim.

(** The data-model invariant: three piles, none negative. *)
Definition state_ok (l : list Z) : Prop :=
  length l = 3%nat /\ Forall (fun x => 0 <= x) l.

(** The pile states a game can be in: the initial one, and what a call of
    [play] that returns leaves behind. *)
Inductive reachable : list Z -> Prop :=
  | reach_init : reachable Nim.init
  | reach_play (w w' : world) (pile amount : Z) :
      reachable (piles w) ->
      Nim.play pile amount w = (Ok tt, w') ->
      reachable (piles w').

(** ** Text *)

Definition nl : string := String "010"%char EmptyString.
Definition cr : string := String "013"%char EmptyString.
Definition esc : string := String "027"%char EmptyString.

(** [c * n] for a one-character string: [n] copies, none when [n <= 0]. *)
Definition str_mul (c : ascii) (n : Z) : string :=
  Nat.iter (Z.to_nat n) (String c) EmptyString.

(** [s.rjust(width)]: spaces in front up to the width. *)
Definition rjust (width : nat) (s : string) : string :=
  Nat.iter (width - String.length s) (String " "%char) EmptyString +:+ s.

(** [str(i)] for an index of [enumerate]. *)
Definition str_of_nat (i : nat) : string :=
  NilEmpty.string_of_uint (Nat.to_uint i).

(** One line of [Nim.__str__]: bold index in brackets, yellow run of
    asterisks. *)
Definition render_pile (i : nat) (pile_amount : Z) : string :=
  esc +:+ "[1m[" +:+ str_of_nat i +:+ "]" +:+ esc +:+ "[0m " +:+
  esc +:+ "[33m" +:+ str_mul "*"%char pile_amount +:+ esc +:+ "[0m" +:+ nl.

(** [Nim.__str__]: the lines of all piles, index counted from [i]. *)
Fixpoint render_from (i : nat) (l : list Z) : string :=
  match l with
  | [] => EmptyString
  | pile_amount :: l' => render_pile i pile_amount +:+ render_from (S i) l'
  end.

Definition render (l : list Z) : string := render_from 0 l.

(** *** The builtin [int] on a bytes object *)

Definition code (c : ascii) : Z := Z.of_N (Ascii.N_of_ascii c).

(** ASCII white space: tab, line feed, vertical tab, form feed, carriage
    return, space. *)
Definition is_space (c : ascii) : bool :=
  ((9 <=? code c) && (code c <=? 13)) || (code c =? 32).
Definition is_digit (c : ascii) : bool := (48 <=? code c) && (code c <=? 57).
Definition is_underscore (c : ascii) : bool := code c =? 95.
Definition digit_value (c : ascii) : Z := code c - 48.

Fixpoint skip_spaces (s : string) : string :=
  match s with
  | String c s' => if is_space c then skip_spaces s' else s
  | EmptyString => s
  end.

(** An optional [+] or [-] in front. *)
Definition take_sign (s : string) : Z * string :=
  match s with
  | String c s' =>
      if code c =? 43 then (1, s')
      else if code c =? 45 then (-1, s')
      else (1, s)
  | EmptyString => (1, s)
  end.

(** The digit scan of the interpreter: digits and underscores are taken as
    long as they come, two underscores in a row or one at the end are an
    error.  [prev] is the character before, [acc] the value and [digits] the
    number of the digits so far; the rest of the text is returned. *)
Fixpoint scan_digits (s : string) (prev : ascii) (acc digits : Z)
  : option (Z * Z * string) :=
  match s with
  | String c s' =>
      if is_digit c then
        scan_digits s' c (acc * 10 + digit_value c) (digits + 1)
      else if is_underscore c then
        if is_underscore prev then None else scan_digits s' c acc digits
      else if is_underscore prev then None else Some (acc, digits, s)
  | EmptyString =>
      if is_underscore prev then None else Some (acc, digits, s)
  end.

(** Below this many digits the interpreter does not look at its limit. *)
Definition max_str_digits_threshold : Z := 640.

(** The digits of a literal in base ten, after white space and sign, [None]
    for an error: no underscore in front, the scan, at least one digit, only
    white space behind, and not more digits than the limit [limit] when the
    limit is set ([limit > 0]). *)
Definition long_from_string_base (limit : Z) (s : string) : option Z :=
  match s with
  | String c _ =>
      if is_underscore c then None
      else
        match scan_digits s "000"%char 0 0 with
        | Some (v, digits, rest) =>
            if digits =? 0 then None
            else
              match skip_spaces rest with
              | EmptyString =>
                  if (digits >? max_str_digits_threshold) && (limit >? 0)
                     && (digits >? limit)
                  then None
                  else Some v
              | String _ _ => None
              end
        | None => None
        end
  | EmptyString => None
  end.

(** [int(line)] in base ten, [None] for a [ValueError]: white space, sign,
    digits with single underscores between them, white space. *)
Definition py_int (limit : Z) (line : bytes) : option Z :=
  let '(sign, s) := take_sign (skip_spaces line) in
  match long_from_string_base limit s with
  | Some v => Some (sign * v)
  | None => None
  end.

(** [bytes.strip()]: white space off both ends. *)
Definition strip (s : bytes) : bytes :=
  String.rev (skip_spaces (String.rev (skip_spaces s))).

(** ** The session driver: class [NimDriver] *)

(** [self._writer.write(data)] *)
Definition write (data : bytes) : M unit :=
  fun w => (Ok tt, set_written (written w ++ [data]) w).

(** [await self._writer.drain()]: flow control only.  The sessions modelled
    are those of a peer that stays connected and keeps reading, for which
    the call returns; the loss of the connection is met at the next read,
    as [Broken]. *)
Definition drain : M unit := ret tt.

(** [await asyncio.sleep(t)]: time is not observed. *)
Definition sleep : M unit := ret tt.

(** [await self._reader.readline()] *)
Definition readline : M bytes :=
  fun w =>
    match input w with
    | Feed line rest => (Ok line, set_input rest w)
    | AtEof => (Ok EmptyString, w)
    | Overlong => (Raise ValueError, w)
    | Broken => (Raise ConnectionResetError, w)
    | Silent => (Suspended, w)
    end.

(** [int(line)] under [try], with the interpreter's current limit: the
    value, or [None] when a [ValueError] was raised. *)
Definition try_int (line : bytes) : M (option Z) :=
  fun w => (Ok (py_int (max_str_digits w) line), w).

(** [writer.close()] *)
Definition close : M unit := fun w => (Ok tt, set_closed true w).

(** [await writer.wait_closed()] *)
Definition wait_closed : M unit := ret tt.

(** The budget of a loop is used up. *)
Definition out_of_fuel {A} : M A := fun w => (OutOfFuel, w).

Module NimDriver.

Definition pile_prompt : string := "Which pile would you like to take from?".
Definition amount_prompt : string := "How many would you like to take?".
Definition not_an_integer : bytes := "Input wasn't a valid integer." +:+ nl.
Definition not_a_valid_move : bytes := "Not a valid move." +:+ nl.
Definition you_won : bytes := "You won. Congrats." +:+ nl.
Definition computer_won : bytes :=
  nl +:+ "The computer beat you. That's honestly kinda sad." +:+ nl.

(** [_read_int]: the [while True] loop, at most [fuel] rounds of it.  The
    value of [line.strip()] is computed and dropped, as in the source; only
    the [ValueError] of [int] is caught. *)
Fixpoint _read_int (fuel : nat) (prompt : string) : M Z :=
  match fuel with
  | O => out_of_fuel
  | S fuel' =>
      write (prompt +:+ nl +:+ "> ");;
      drain;;
      line ← readline;
      let _ := strip line in
      v ← try_int line;
      match v with
      | Some v => ret v
      | None =>
          write not_an_integer;;
          drain;;
          _read_int fuel' prompt
      end
  end.

(** [_ask_move] *)
Definition _ask_move (fuel : nat) : M (Z * Z) :=
  pile ← _read_int fuel pile_prompt;
  amount ← _read_int fuel amount_prompt;
  ret (pile, amount).

(** The three asterisk frames of the progress bar. *)
Definition dots (i : nat) : string :=
  rjust 3 (str_mul "*"%char (Z.of_nat (i mod 3 + 1))).

(** [_fake_progress_bar] *)
Definition _fake_progress_bar (prompt : string) : M unit :=
  for_each (seq 0 15) (fun i =>
    write (cr +:+ prompt +:+ ": " +:+ dots i);;
    drain;;
    sleep);;
  write nl.

(** The [while not self._nim.move_is_valid(pile, amount)] loop of [_round],
    entered with the move asked for so far; it returns the move it lets
    through. *)
Fixpoint _round_until_valid (fuel : nat) (move : Z * Z) : M (Z * Z) :=
  match fuel with
  | O => out_of_fuel
  | S fuel' =>
      ok ← Nim.move_is_valid move.1 move.2;
      if ok : bool then ret move
      else
        write not_a_valid_move;;
        move' ← _ask_move fuel;
        drain;;
        _round_until_valid fuel' move'
  end.

(** [str(self._nim)] *)
Definition str_nim : M string := fun w => (Ok (render (piles w)), w).

(** [_round]: one move of the peer and one of the computer; [True] when
    the game goes on. *)
Definition _round (fuel : nat) : M bool :=
  s ← str_nim;
  write s;;
  drain;;
  move ← _ask_move fuel;
  drain;;
  move ← _round_until_valid fuel move;
  Nim.play move.1 move.2;;
  s ← str_nim;
  write s;;
  drain;;
  _fake_progress_bar "Determining response";;
  go_on ← Nim.can_continue;
  if negb go_on then
    write you_won;;
    drain;;
    ret false
  else
    move ← Nim.random_move;
    Nim.play move.1 move.2;;
    go_on ← Nim.can_continue;
    if negb go_on then
      s ← str_nim;
      write s;;
      write computer_won;;
      drain;;
      ret false
    else ret true.

(** [play]: [while await self._round(): pass] *)
Fixpoint play (fuel : nat) : M unit :=
  match fuel with
  | O => out_of_fuel
  | S fuel' =>
      again ← _round fuel;
      if again : bool then play fuel' else ret tt
  end.

(** [__init__]: a new game. *)
Definition new : M unit := fun w => (Ok tt, set_piles Nim.init w).

(** [cb] of [main]: what is run for one connection. *)
Definition cb (fuel : nat) : M unit :=
  new;;
  play fuel;;
  close;;
  wait_closed.

End NimDriver.

(** ** The spec's integer syntax *)

(** The value of the digits in front of [s], and what follows them. *)
Fixpoint take_digits (s : string) (acc : Z) : Z * string :=
  match s with
  | String c s' =>
      if is_digit c then take_digits s' (acc * 10 + digit_value c)
      else (acc, s)
  | EmptyString => (acc, s)
  end.

(** One or more decimal digits and then only white space. *)
Definition plain_digits (s : string) : option Z :=
  match s with
  | String c _ =>
      if is_digit c then
        let '(v, rest) := take_digits s 0 in
        match skip_spaces rest with
        | EmptyString => Some v
        | String _ _ => None
        end
      else None
  | EmptyString => None
  end.

(** The spec's "conventional textual representation of a signed integer
    (leading/trailing whitespace tolerated)": white space, an optional sign,
    one or more decimal digits, white space. *)
Definition conventional_int (line : string) : option Z :=
  let '(sign, s) := take_sign (skip_spaces line) in
  match plain_digits s with
  | Some v => Some (sign * v)
  | None => None
  end.

(** The number of decimal digits in a text. *)
Fixpoint digit_count (s : string) : Z :=
  match s with
  | String c s' => (if is_digit c then 1 else 0) + digit_count s'
  | EmptyString => 0
  end.

(** The interpreter's limit does not apply to a text with [n] digits. *)
Definition within_limit (limit n : Z) : bool :=
  negb ((n >? max_str_digits_threshold) && (limit >? 0) && (n >? limit)).

(** A world at the start of a game whose peer never sends anything. *)
Definition start : world :=
  {| piles := Nim.init; written := []; input := Silent;
     random := {| tape := fun _ => 0; cursor := 0 |};
     closed := false; max_str_digits := 4300 |}.

(** ** Notions used in the statements *)

(** The sum of all piles, as a mathematical sum. *)
Definition total (l : list Z) : Z := foldr Z.add 0 l.

(** A command is benign when it does not touch the piles and never raises
    an [AssertionError]. *)
Definition benign {A} (c : M A) : Prop :=
  forall w, piles (c w).2 = piles w /\ (c w).1 <> Raise AssertionError.

(** [guards J P c Q]: run from a world whose piles satisfy [J] and that
    satisfies [P], the command [c] ends in a world whose piles satisfy [J],
    however it ends; when it returns, [Q] holds of its value and the world;
    when it raises, it is not an [AssertionError]. *)
Definition guards {A} (J : list Z -> Prop) (P : world -> Prop) (c : M A)
    (Q : A -> world -> Prop) : Prop :=
  forall w, J (piles w) -> P w ->
    match c w with
    | (Ok a, w') => J (piles w') /\ Q a w'
    | (Raise e, w') => J (piles w') /\ e <> AssertionError
    | (_, w') => J (piles w')
    end.

Definition any_world : world -> Prop := fun _ => True.
Definition any_result {A} : A -> world -> Prop := fun _ _ => True.

(** The move is one the predicate accepts in this world. *)
Definition accepted (move : Z * Z) (w : world) : Prop :=
  (Nim.move_is_valid move.1 move.2 w).1 = Ok true.

(** Underscores taken out of a text. *)
Fixpoint remove_underscores (s : string) : string :=
  match s with
  | String c s' =>
      if is_underscore c then remove_underscores s'
      else String c (remove_underscores s')
  | EmptyString => EmptyString
  end.

Definition starts_with_digit (s : string) : bool :=
  match s with
  | String c _ => is_digit c
  | EmptyString => false
  end.

(** Every underscore of [s] stands between two digits; [prev] is the
    character in front of [s]. *)
Fixpoint underscores_from (prev : ascii) (s : string) : bool :=
  match s with
  | String c s' =>
      (if is_underscore c then is_digit prev && starts_with_digit s' else true)
      && underscores_from c s'
  | EmptyString => true
  end.

Definition underscores_between_digits (line : string) : bool :=
  underscores_from "000"%char line.

Definition starts_with_underscore (s : string) : bool :=
  match s with
  | String c _ => is_underscore c
  | EmptyString => false
  end.

(** A text without underscores. *)
Fixpoint plain (s : string) : bool :=
  match s with
  | String c s' => negb (is_underscore c) && plain s'
  | EmptyString => true
  end.

(** The reader that yields the lines of a list and then goes on as [r]. *)
Definition feed (lines : list bytes) (r : reader) : reader := foldr Feed r lines.

(** What [_read_int] writes before it reads. *)
Definition prompt_line (prompt : string) : bytes := prompt +:+ nl +:+ "> ".

(** The lines the integer prompt takes for the integer [v]: a conventional
    representation of [v], white space around it tolerated, in which single
    underscores may stand between digits, with no more digits than the
    interpreter's limit allows. *)
Definition accepted_literal (limit : Z) (line : bytes) (v : Z) : Prop :=
  underscores_between_digits line = true /\
  conventional_int (remove_underscores line) = Some v /\
  within_limit limit (digit_count line) = true.

(** The pile states [n] calls of [play] that return lead to from the
    initial one. *)
Inductive plays : nat -> list Z -> Prop :=
  | plays_none : plays 0 Nim.init
  | plays_more (n : nat) (w w' : world) (pile amount : Z) :
      plays n (piles w) ->
      Nim.play pile amount w = (Ok tt, w') ->
      plays (S n) (piles w').

(** A random module that draws [first] and then [second] for ever. *)
Definition two_draws (first second : Z) : rng :=
  {| tape := fun k => match k with O => first | S _ => second end;
     cursor := 0 |}.

(** How often the character [c] occurs in [s]. *)
Fixpoint count_char (c : ascii) (s : string) : nat :=
  match s with
  | String c' s' => (if Ascii.eqb c c' then 1 else 0) + count_char c s'
  | EmptyString => 0
  end.

(** What [_fake_progress_bar] writes: fifteen frames and a line feed. *)
Definition progress_frames (prompt : string) : list bytes :=
  map (fun i => cr +:+ prompt +:+ ": " +:+ NimDriver.dots i) (seq 0 15) ++ [nl].

(** How a call ends when it does not return. *)
Inductive stop : Type :=
  | Raised (e : exn)
  | Waiting
  | Exhausted.

(** [ensures P c Q X]: run from a world that satisfies [P], the command [c]
    either returns a value and a world that satisfy [Q], or stops in a way
    and a world that satisfy [X]. *)
Definition ensures {A} (P : world -> Prop) (c : M A) (Q : A -> world -> Prop)
    (X : stop -> world -> Prop) : Prop :=
  forall w, P w ->
    match c w with
    | (Ok a, w') => Q a w'
    | (Raise e, w') => X (Raised e) w'
    | (Suspended, w') => X Waiting w'
    | (OutOfFuel, w') => X Exhausted w'
    end.

(** A command is quiet when it touches neither the piles nor the writer's
    closed flag and raises nothing but what the reader raises. *)
Definition quiet {A} (c : M A) : Prop :=
  forall w,
    piles (c w).2 = piles w /\ closed (c w).2 = closed w /\
    forall e, (c w).1 = Raise e -> e = ConnectionResetError \/ e = ValueError.

(** A command that returns from every world. *)
Definition returns {A} (c : M A) : Prop :=
  forall w, exists a, (c w).1 = Ok a.

(** The piles are [l] and the closed flag is [b]. *)
Definition at_state (l : list Z) (b : bool) : world -> Prop :=
  fun w => piles w = l /\ closed w = b.

(** A way to stop that the reader or an index out of range accounts for. *)
Definition transport_or_index (s : stop) : Prop :=
  match s with
  | Raised e => e = ConnectionResetError \/ e = ValueError \/ e = IndexError
  | Waiting | Exhausted => True
  end.

(** The command stopped with piles [l] and closed flag [b] untouched. *)
Definition stopped (l : list Z) (b : bool) : stop -> world -> Prop :=
  fun s w => at_state l b w /\ transport_or_index s.

(** The second half of [_round], from the display after the peer's move to
    the end. *)
Definition round_tail : M bool :=
  s ← NimDriver.str_nim;
  write s;;
  drain;;
  NimDriver._fake_progress_bar "Determining response";;
  go_on ← Nim.can_continue;
  if negb go_on then
    write NimDriver.you_won;;
    drain;;
    ret false
  else
    move ← Nim.random_move;
    Nim.play move.1 move.2;;
    go_on ← Nim.can_continue;
    if negb go_on then
      s ← NimDriver.str_nim;
      write s;;
      write NimDriver.computer_won;;
      drain;;
      ret false
    else ret true.

(** The result of the second half of a round, run from piles [l]. *)
Definition tail_result (l : list Z) (b : bool) (spare : Z)
  : bool -> world -> Prop :=
  fun go w' =>
    closed w' = b /\ state_ok (piles w') /\
    (go = true <-> total (piles w') <> 0) /\
    total (piles w') + (if go then 1 + spare else spare) <= total l.

(** The world the peer of the witnesses plays in: it takes the whole of
    pile 0 and then is silent; the random module draws zeros. *)
Definition one_move_world : world :=
  set_input (Feed ("0" +:+ nl) (Feed ("3" +:+ nl) Silent)) start.

(** A peer that plays a whole game against a random module that draws
    zeros, and wins it. *)
Definition winning_peer : reader :=
  feed ["0" +:+ nl; "3" +:+ nl; "1" +:+ nl; "3" +:+ nl; "2" +:+ nl; "4" +:+ nl]
       Silent.

(** The limit of a stream on the length of a line: asyncio's default of
    64 KiB, since [start_server] is given none. *)
Definition stream_limit : Z := 65536.

(** A line short enough for [readline] to deliver it. *)
Definition deliverable (line : bytes) : Prop :=
  Z.of_nat (String.length line) <= stream_limit.

(** * Properties *)

Ltac munfold :=
  unfold mbind, M_bind, mret, M_ret, bind, ret, raise, out_of_fuel in *.

(** ** Sequence indices *)

Lemma py_index_front (n : nat) (i : Z) :
  0 <= i < Z.of_nat n -> py_index n i = Some (Z.to_nat i).
Proof.
  intros [H0 Hn]. unfold py_index.
  destruct (Z.leb_spec 0 i); [|lia].
  destruct (Z.ltb_spec i (Z.of_nat n)); [|lia]. reflexivity.
Qed.

Lemma py_index_back (n : nat) (i : Z) :
  - Z.of_nat n <= i < 0 -> py_index n i = Some (Z.to_nat (Z.of_nat n + i)).
Proof.
  intros [Hn H0]. unfold py_index.
  destruct (Z.leb_spec 0 i); [lia|]. cbn [andb].
  destruct (Z.leb_spec (- Z.of_nat n) i); [|lia].
  destruct (Z.ltb_spec i 0); [|lia]. reflexivity.
Qed.

Lemma py_index_outside (n : nat) (i : Z) :
  i < - Z.of_nat n \/ Z.of_nat n <= i -> py_index n i = None.
Proof.
  intros H. unfold py_index.
  destruct (Z.leb_spec 0 i), (Z.ltb_spec i (Z.of_nat n)),
    (Z.leb_spec (- Z.of_nat n) i), (Z.ltb_spec i 0); cbn; try reflexivity; lia.
Qed.

Lemma py_index_lt (n : nat) (i : Z) (k : nat) :
  py_index n i = Some k -> (k < n)%nat.
Proof.
  unfold py_index.
  destruct (Z.leb_spec 0 i), (Z.ltb_spec i (Z.of_nat n)),
    (Z.leb_spec (- Z.of_nat n) i), (Z.ltb_spec i 0); cbn;
    intros [= <-]; lia.
Qed.

(** ** The engine, call by call *)

(** [move_is_valid] as one case analysis; the world is never changed. *)
Lemma move_is_valid_eq (pile amount : Z) (w : world) :
  Nim.move_is_valid pile amount w =
  (if amount >? 0 then
     if pile <? Z.of_nat (length (piles w)) then
       match py_index (length (piles w)) pile with
       | Some k =>
           match piles w !! k with
           | Some v => Ok (v >=? amount)
           | None => Raise IndexError
           end
       | None => Raise IndexError
       end
     else Ok false
   else Ok false, w).
Proof.
  unfold Nim.move_is_valid, len, getitem. destruct (amount >? 0); [|reflexivity].
  munfold. destruct (pile <? _); [|reflexivity].
  destruct (py_index _ _) as [k|]; [|reflexivity].
  destruct (piles w !! k); reflexivity.
Qed.

Lemma move_is_valid_world (pile amount : Z) (w : world) :
  (Nim.move_is_valid pile amount w).2 = w.
Proof. rewrite move_is_valid_eq. reflexivity. Qed.


Lemma move_is_valid_beyond (pile amount : Z) (w : world) :
  Z.of_nat (length (piles w)) <= pile ->
  Nim.move_is_valid pile amount w = (Ok false, w).
Proof.
  intros H. rewrite move_is_valid_eq. destruct (amount >? 0); [|reflexivity].
  destruct (Z.ltb_spec pile (Z.of_nat (length (piles w)))); [lia|reflexivity].
Qed.

Lemma move_is_valid_front (pile amount v : Z) (w : world) :
  0 <= pile -> piles w !! Z.to_nat pile = Some v -> 0 < amount ->
  Nim.move_is_valid pile amount w = (Ok (v >=? amount), w).
Proof.
  intros H0 Hv Ha. rewrite move_is_valid_eq.
  apply lookup_lt_Some in Hv as Hlt.
  destruct (Z.gtb_spec amount 0); [|lia].
  destruct (Z.ltb_spec pile (Z.of_nat (length (piles w)))); [|lia].
  rewrite py_index_front by lia. rewrite Hv. reflexivity.
Qed.


Lemma move_is_valid_before (pile amount : Z) (w : world) :
  pile < - Z.of_nat (length (piles w)) -> 0 < amount ->
  Nim.move_is_valid pile amount w = (Raise IndexError, w).
Proof.
  intros Hp Ha. rewrite move_is_valid_eq.
  destruct (Z.gtb_spec amount 0); [|lia].
  destruct (Z.ltb_spec pile (Z.of_nat (length (piles w)))); [|lia].
  rewrite py_index_outside by lia. reflexivity.
Qed.

(** When the predicate says yes, the pile exists under Python's index rule
    and holds at least [amount], which is positive. *)
Lemma move_is_valid_true (pile amount : Z) (w : world) :
  (Nim.move_is_valid pile amount w).1 = Ok true ->
  exists k v,
    py_index (length (piles w)) pile = Some k /\ piles w !! k = Some v /\
    0 < amount <= v.
Proof.
  rewrite move_is_valid_eq. cbn [fst].
  destruct (Z.gtb_spec amount 0); [|discriminate].
  destruct (pile <? _); [|discriminate].
  destruct (py_index _ _) as [k|]; [|discriminate].
  destruct (piles w !! k) as [v|] eqn:Hkv; [|discriminate].
  intros [= Hge]. exists k, v.
  destruct (Z.geb_spec v amount); [|discriminate]. repeat split; auto; lia.
Qed.

(** [play] as one case analysis on the predicate. *)
Lemma play_eq (pile amount : Z) (w : world) :
  Nim.play pile amount w =
  match (Nim.move_is_valid pile amount w).1 with
  | Ok true =>
      match py_index (length (piles w)) pile with
      | Some k =>
          match piles w !! k with
          | Some v => (Ok tt, set_piles (<[k := v - amount]> (piles w)) w)
          | None => (Raise IndexError, w)
          end
      | None => (Raise IndexError, w)
      end
  | Ok false => (Raise AssertionError, w)
  | Raise e => (Raise e, w)
  | Suspended => (Suspended, w)
  | OutOfFuel => (OutOfFuel, w)
  end.
Proof.
  unfold Nim.play. munfold.
  pose proof (move_is_valid_world pile amount w) as Hw.
  destruct (Nim.move_is_valid pile amount w) as [[[]|e| |] w']; cbn in Hw |- *;
    subst w'; try reflexivity.
  unfold getitem, setitem.
  destruct (py_index _ _) as [k|] eqn:Hk; [|reflexivity].
  destruct (piles w !! k); [|reflexivity].
  rewrite Hk. reflexivity.
Qed.

(** A call of [play] that returns took a positive [amount] from one pile
    that held at least as much. *)
Lemma play_ok (pile amount : Z) (w w' : world) :
  Nim.play pile amount w = (Ok tt, w') ->
  exists k v,
    py_index (length (piles w)) pile = Some k /\ piles w !! k = Some v /\
    0 < amount <= v /\ w' = set_piles (<[k := v - amount]> (piles w)) w.
Proof.
  rewrite play_eq.
  destruct (Nim.move_is_valid pile amount w).1 as [[]|e| |] eqn:Hv;
    try discriminate.
  destruct (move_is_valid_true _ _ _ Hv) as (k & v & Hk & Hkv & Ha).
  rewrite Hk, Hkv. intros [= <-]. exists k, v. auto.
Qed.

(** ** The invariant of the piles *)

Lemma state_ok_init : state_ok Nim.init.
Proof.
  split; [reflexivity|]. unfold Nim.init. repeat constructor; lia.
Qed.

Lemma state_ok_insert (l : list Z) (k : nat) (x : Z) :
  state_ok l -> 0 <= x -> state_ok (<[k := x]> l).
Proof.
  intros [Hlen Hall] Hx. split.
  - rewrite length_insert. exact Hlen.
  - apply Forall_insert; assumption.
Qed.

Lemma play_state_ok (pile amount : Z) (w w' : world) :
  state_ok (piles w) -> Nim.play pile amount w = (Ok tt, w') ->
  state_ok (piles w').
Proof.
  intros Hok Hplay.
  destruct (play_ok _ _ _ _ Hplay) as (k & v & _ & _ & Ha & ->).
  cbn. apply state_ok_insert; [assumption|lia].
Qed.

Lemma reachable_state_ok (l : list Z) : reachable l -> state_ok l.
Proof.
  induction 1 as [|w w' pile amount _ IH Hplay].
  - exact state_ok_init.
  - exact (play_state_ok _ _ _ _ IH Hplay).
Qed.

(** ** Sums *)

Lemma total_cons (x : Z) (l : list Z) : total (x :: l) = x + total l.
Proof. reflexivity. Qed.

Lemma fold_left_add_shift (l : list Z) (a : Z) :
  fold_left Z.add l a = a + total l.
Proof.
  revert a. induction l as [|x l IH]; intros a.
  - cbn. lia.
  - rewrite total_cons. cbn [fold_left]. rewrite IH. lia.
Qed.

Lemma py_sum_total (l : list Z) : py_sum l = total l.
Proof. unfold py_sum. rewrite fold_left_add_shift. lia. Qed.

Lemma total_nonneg (l : list Z) : Forall (fun x => 0 <= x) l -> 0 <= total l.
Proof. induction 1; rewrite ?total_cons; [cbn|]; lia. Qed.

Lemma total_zero_iff (l : list Z) :
  Forall (fun x => 0 <= x) l ->
  (total l = 0 <-> Forall (fun x => x = 0) l).
Proof.
  induction 1 as [|x l Hx Hl IH]; rewrite ?total_cons.
  - split; [constructor|reflexivity].
  - pose proof (total_nonneg l Hl). split.
    + intros Hsum. constructor; [lia|]. apply IH. lia.
    + intros Hall. inversion Hall as [|? ? Hx0 Hl0]; subst.
      apply IH in Hl0. lia.
Qed.

(** A list of non-negative numbers whose sum is not zero has a positive
    element. *)
Lemma total_nonzero_positive (l : list Z) :
  Forall (fun x => 0 <= x) l -> total l <> 0 ->
  exists k v, l !! k = Some v /\ 0 < v.
Proof.
  induction 1 as [|x l Hx Hl IH]; rewrite ?total_cons; intros Hsum.
  - cbn in Hsum. congruence.
  - destruct (Z.eq_dec x 0) as [->|Hne].
    + destruct IH as (k & v & Hk & Hv); [lia|]. exists (S k), v. auto.
    + exists 0%nat, x. split; [reflexivity|lia].
Qed.

(** ** The random choice *)

Lemma positive_indices_elem (l : list Z) (i x : Z) :
  x ∈ positive_indices i l ->
  exists (k : nat) (v : Z), x = i + Z.of_nat k /\ l !! k = Some v /\ 0 < v.
Proof.
  revert i. induction l as [|y l IH]; intros i; cbn.
  - intros H. inversion H.
  - destruct (Z.gtb_spec y 0) as [Hy|Hy].
    + intros [->|Hin]%elem_of_cons.
      * exists 0%nat, y. repeat split; [lia|assumption].
      * destruct (IH _ Hin) as (k & v & -> & Hk & Hv).
        exists (S k), v. repeat split; [lia|assumption..].
    + intros Hin. destruct (IH _ Hin) as (k & v & -> & Hk & Hv).
      exists (S k), v. repeat split; [lia|assumption..].
Qed.

Lemma positive_indices_nonempty (l : list Z) (i : Z) (k : nat) (v : Z) :
  l !! k = Some v -> 0 < v -> positive_indices i l <> [].
Proof.
  revert i k. induction l as [|y l IH]; intros i k; cbn.
  - discriminate.
  - destruct (Z.gtb_spec y 0) as [Hy|Hy]; [discriminate|].
    destruct k as [|k]; cbn.
    + intros [= ->] Hv. lia.
    + intros Hk Hv. exact (IH _ _ Hk Hv).
Qed.

Lemma randbelow_range (n : Z) (w : world) :
  0 < n ->
  exists k w',
    randbelow n w = (Ok k, w') /\ 0 <= k < n /\ piles w' = piles w.
Proof.
  intros Hn. eexists _, _. split; [reflexivity|]. split; [|reflexivity].
  apply Z.mod_pos_bound. exact Hn.
Qed.

Lemma choice_elem (seq : list Z) (w : world) :
  seq <> [] ->
  exists x w', choice seq w = (Ok x, w') /\ x ∈ seq /\ piles w' = piles w.
Proof.
  intros Hne. destruct seq as [|y seq']; [congruence|].
  unfold choice. munfold.
  destruct (randbelow_range (Z.of_nat (length (y :: seq'))) w)
    as (k & w' & -> & Hk & Hp); [cbn; lia|].
  destruct (lookup_lt_is_Some_2 (y :: seq') (Z.to_nat k)) as [x Hx]; [lia|].
  rewrite Hx. exists x, w'. split; [reflexivity|]. split; [|exact Hp].
  apply list_elem_of_lookup. eauto.
Qed.

Lemma randint_range (a b : Z) (w : world) :
  a <= b ->
  exists x w', randint a b w = (Ok x, w') /\ a <= x <= b /\ piles w' = piles w.
Proof.
  intros Hab. unfold randint. destruct (Z.gtb_spec (b - a + 1) 0); [|lia].
  munfold.
  destruct (randbelow_range (b - a + 1) w) as (k & w' & -> & Hk & Hp); [lia|].
  exists (a + k), w'. split; [reflexivity|]. split; [lia|exact Hp].
Qed.

Lemma getitem_front (i v : Z) (w : world) :
  0 <= i -> piles w !! Z.to_nat i = Some v -> getitem i w = (Ok v, w).
Proof.
  intros Hi Hv. unfold getitem. apply lookup_lt_Some in Hv as Hlt.
  rewrite py_index_front by lia. rewrite Hv. reflexivity.
Qed.

Lemma choice_cases (seq : list Z) (w : world) :
  match choice seq w with
  | (Ok x, w') => x ∈ seq /\ piles w' = piles w
  | (Raise e, w') => e = IndexError /\ seq = [] /\ w' = w
  | (_, _) => False
  end.
Proof.
  destruct seq as [|y seq'].
  - cbn. auto.
  - destruct (choice_elem (y :: seq') w) as (x & w' & -> & Hin & Hp);
      [discriminate|]. auto.
Qed.

Lemma getitem_cases (i : Z) (w : world) :
  match getitem i w with
  | (Ok v, w') =>
      w' = w /\ exists k, py_index (length (piles w)) i = Some k /\
                          piles w !! k = Some v
  | (Raise e, w') => e = IndexError /\ w' = w
  | (_, _) => False
  end.
Proof.
  unfold getitem. destruct (py_index _ _) as [k|] eqn:Hk; [|auto].
  destruct (piles w !! k) as [v|] eqn:Hv; [|auto]. eauto.
Qed.

(** [random_move], whatever is drawn: the pile it returns is not empty and
    the amount is between one and its size; it may raise, for want of a
    pile that is not empty, but never an [AssertionError]. *)
Lemma random_move_cases (w : world) :
  match Nim.random_move w with
  | (Ok (p, a), w') =>
      piles w' = piles w /\
      exists v, 0 <= p /\ piles w !! Z.to_nat p = Some v /\ 0 < v /\ 1 <= a <= v
  | (Raise e, w') => piles w' = piles w /\ e <> AssertionError
  | (_, w') => piles w' = piles w
  end.
Proof.
  unfold Nim.random_move. munfold.
  pose proof (choice_cases (positive_indices 0 (piles w)) w) as Hc.
  destruct (choice _ w) as [[p|e| |] w1]; try contradiction.
  2:{ destruct Hc as (-> & _ & ->). split; [reflexivity|discriminate]. }
  destruct Hc as [Hin Hp1].
  destruct (positive_indices_elem _ _ _ Hin) as (k & v & -> & Hk & Hv).
  rewrite Z.add_0_l.
  rewrite (getitem_front (Z.of_nat k) v w1)
    by (rewrite ?Hp1, ?Nat2Z.id; auto; lia).
  destruct (randint_range 1 v w1) as (a & w2 & -> & Ha & Hp2); [lia|].
  split; [congruence|]. exists v. rewrite Nat2Z.id.
  repeat split; try lia; assumption.
Qed.

(** [random_move] on piles of which one is not empty returns. *)
Lemma random_move_ok (w : world) (k0 : nat) (v0 : Z) :
  piles w !! k0 = Some v0 -> 0 < v0 ->
  exists p a v w',
    Nim.random_move w = (Ok (p, a), w') /\ piles w' = piles w /\
    0 <= p /\ piles w !! Z.to_nat p = Some v /\ 0 < v /\ 1 <= a <= v.
Proof.
  intros Hk0 Hv0. pose proof (random_move_cases w) as Hc.
  unfold Nim.random_move in *. munfold.
  destruct (choice_elem (positive_indices 0 (piles w)) w)
    as (p & w1 & Hch & Hin & Hp1).
  { exact (positive_indices_nonempty _ 0 _ _ Hk0 Hv0). }
  rewrite Hch in *.
  destruct (positive_indices_elem _ _ _ Hin) as (k & v & -> & Hk & Hv).
  rewrite Z.add_0_l in *.
  rewrite (getitem_front (Z.of_nat k) v w1) in *
    by (rewrite ?Hp1, ?Nat2Z.id; auto; lia).
  destruct (randint_range 1 v w1) as (a & w2 & Hr & Ha & Hp2); [lia|].
  rewrite Hr in *. destruct Hc as (Hp & v' & H0 & Hv' & Hpos & Ha').
  exists (Z.of_nat k), a, v', w2. auto 10.
Qed.

(** ** Commands that leave the piles alone *)

Lemma benign_ret {A} (a : A) : benign (mret a).
Proof. intros w. split; [reflexivity|discriminate]. Qed.

Lemma benign_bind {A B} (c : M A) (k : A -> M B) :
  benign c -> (forall a, benign (k a)) -> benign (c ≫= k).
Proof.
  intros Hc Hk w. munfold. destruct (Hc w) as [Hp Hr].
  destruct (c w) as [[a|e| |] w1]; cbn in *.
  - destruct (Hk a w1) as [Hp' Hr']. split; [congruence|assumption].
  - split; [assumption|]. intros [= ->]. contradiction.
  - split; [assumption|discriminate].
  - split; [assumption|discriminate].
Qed.

Lemma benign_write (data : bytes) : benign (write data).
Proof. intros w. split; [reflexivity|discriminate]. Qed.

Lemma benign_drain : benign drain.
Proof. apply (benign_ret tt). Qed.

Lemma benign_sleep : benign sleep.
Proof. apply (benign_ret tt). Qed.

Lemma benign_readline : benign readline.
Proof.
  intros w. unfold readline.
  destruct (input w); cbn; (split; [reflexivity|discriminate]).
Qed.

Lemma benign_try_int (line : bytes) : benign (try_int line).
Proof. intros w. split; [reflexivity|discriminate]. Qed.

Lemma benign_str_nim : benign NimDriver.str_nim.
Proof. intros w. split; [reflexivity|discriminate]. Qed.

Lemma benign_out_of_fuel {A} : benign (@out_of_fuel A).
Proof. intros w. split; [reflexivity|discriminate]. Qed.

Lemma benign_can_continue : benign Nim.can_continue.
Proof. intros w. split; [reflexivity|discriminate]. Qed.

Lemma benign_move_is_valid (pile amount : Z) :
  benign (Nim.move_is_valid pile amount).
Proof.
  intros w. rewrite move_is_valid_eq. cbn [fst snd]. split; [reflexivity|].
  destruct (amount >? 0); [|discriminate].
  destruct (pile <? _); [|discriminate].
  destruct (py_index _ _) as [k|]; [|discriminate].
  destruct (piles w !! k); discriminate.
Qed.

Lemma benign_for_each {A} (l : list A) (body : A -> M unit) :
  (forall x, benign (body x)) -> benign (for_each l body).
Proof.
  intros Hb. induction l as [|x l IH]; cbn [for_each].
  - apply (benign_ret tt).
  - apply benign_bind; [apply Hb|]. intros _. exact IH.
Qed.

Create HintDb benign.
#[local] Hint Resolve benign_ret benign_write benign_drain benign_sleep
  benign_readline benign_try_int benign_str_nim benign_out_of_fuel
  benign_can_continue benign_move_is_valid : benign.

Ltac benign_steps :=
  repeat first
    [ solve [auto with benign]
    | apply benign_for_each; intros ?
    | apply benign_bind; [|intros ?] ].

Lemma benign_read_int (fuel : nat) (prompt : string) :
  benign (NimDriver._read_int fuel prompt).
Proof.
  induction fuel as [|fuel IH]; cbn [NimDriver._read_int].
  - apply benign_out_of_fuel.
  - apply benign_bind; [auto with benign|]. intros _.
    apply benign_bind; [auto with benign|]. intros _.
    apply benign_bind; [auto with benign|]. intros line.
    apply benign_bind; [auto with benign|]. intros [v|]; benign_steps.
Qed.

Lemma benign_ask_move (fuel : nat) : benign (NimDriver._ask_move fuel).
Proof.
  unfold NimDriver._ask_move.
  apply benign_bind; [apply benign_read_int|]. intros pile.
  apply benign_bind; [apply benign_read_int|]. intros amount.
  apply benign_ret.
Qed.

Lemma benign_fake_progress_bar (prompt : string) :
  benign (NimDriver._fake_progress_bar prompt).
Proof. unfold NimDriver._fake_progress_bar. benign_steps. Qed.

#[local] Hint Resolve benign_read_int benign_ask_move
  benign_fake_progress_bar : benign.

(** The [while] loop of [_round] does not touch the piles either. *)
Lemma benign_round_until_valid (fuel : nat) (move : Z * Z) :
  benign (NimDriver._round_until_valid fuel move).
Proof.
  revert move. induction fuel as [|fuel IH]; intros move;
    cbn [NimDriver._round_until_valid].
  - apply benign_out_of_fuel.
  - apply benign_bind; [auto with benign|]. intros [|]; benign_steps.
Qed.

(** ** A program logic for the driver *)

Section Guards.

Variable J : list Z -> Prop.
Hypothesis J_play :
  forall p a w w', J (piles w) -> Nim.play p a w = (Ok tt, w') -> J (piles w').

Lemma guards_ret {A} (a : A) (Q : A -> world -> Prop) :
  guards J (Q a) (mret a) Q.
Proof. intros w HJ HP. cbn. auto. Qed.

Lemma guards_bind {A B} (P : world -> Prop) (c : M A) (R : A -> world -> Prop)
    (k : A -> M B) (Q : B -> world -> Prop) :
  guards J P c R -> (forall a, guards J (R a) (k a) Q) ->
  guards J P (c ≫= k) Q.
Proof.
  intros Hc Hk w HJ HP. munfold. specialize (Hc w HJ HP).
  destruct (c w) as [[a|e| |] w1]; try assumption.
  destruct Hc as [HJ1 HR]. exact (Hk a w1 HJ1 HR).
Qed.

Lemma guards_weaken {A} (P P' : world -> Prop) (c : M A)
    (Q Q' : A -> world -> Prop) :
  guards J P' c Q' -> (forall w, P w -> P' w) ->
  (forall a w, Q' a w -> Q a w) -> guards J P c Q.
Proof.
  intros Hc HP HQ w HJ Hw. specialize (Hc w HJ (HP w Hw)).
  destruct (c w) as [[a|e| |] w1]; try assumption.
  destruct Hc as [HJ1 HQ']. auto.
Qed.

Lemma guards_benign {A} (P : world -> Prop) (c : M A) :
  benign c -> guards J P c any_result.
Proof.
  intros Hc w HJ _. destruct (Hc w) as [Hp Hr].
  destruct (c w) as [[a|e| |] w1]; cbn in *; rewrite Hp; try assumption.
  - split; [assumption|exact I].
  - split; [assumption|]. intros ->. contradiction.
Qed.

(** After a benign command the continuation starts from any world. *)
Lemma guards_then {A B} (P : world -> Prop) (c : M A) (k : A -> M B)
    (Q : B -> world -> Prop) :
  benign c -> (forall a, guards J any_world (k a) Q) ->
  guards J P (c ≫= k) Q.
Proof.
  intros Hc Hk. apply guards_bind with (R := any_result).
  - apply guards_benign. exact Hc.
  - intros a. eapply guards_weaken; [apply Hk|auto|auto].
Qed.

Lemma guards_move_is_valid (move : Z * Z) :
  guards J any_world (Nim.move_is_valid move.1 move.2)
    (fun ok w' => (Nim.move_is_valid move.1 move.2 w').1 = Ok ok).
Proof.
  intros w HJ _. pose proof (move_is_valid_world move.1 move.2 w) as Hw.
  destruct (benign_move_is_valid move.1 move.2 w) as [_ Hr].
  destruct (Nim.move_is_valid move.1 move.2 w) as [r w1] eqn:E.
  cbn in Hw, Hr. subst w1. destruct r as [ok|e| |]; try assumption.
  - split; [assumption|]. rewrite E. reflexivity.
  - split; [assumption|]. intros ->. contradiction.
Qed.

Lemma guards_play (move : Z * Z) :
  guards J (accepted move) (Nim.play move.1 move.2) any_result.
Proof.
  intros w HJ Hacc. unfold accepted in Hacc.
  pose proof (play_eq move.1 move.2 w) as Heq. rewrite Hacc in Heq.
  destruct (move_is_valid_true _ _ _ Hacc) as (k & v & Hk & Hv & Ha).
  rewrite Hk, Hv in Heq. rewrite Heq. split; [|exact I].
  exact (J_play _ _ _ _ HJ Heq).
Qed.

Lemma guards_random_move :
  guards J any_world Nim.random_move accepted.
Proof.
  intros w HJ _. pose proof (random_move_cases w) as Hc.
  destruct (Nim.random_move w) as [[[p a]|e| |] w1].
  - destruct Hc as (Hp & v & H0 & Hv & Hpos & Ha). rewrite Hp.
    split; [assumption|]. unfold accepted. cbn [fst snd].
    rewrite (move_is_valid_front p a v w1) by (rewrite ?Hp; auto; lia).
    cbn [fst]. destruct (Z.geb_spec v a); [reflexivity|lia].
  - destruct Hc as [Hp He]. rewrite Hp. auto.
  - rewrite Hc. assumption.
  - rewrite Hc. assumption.
Qed.

(** The loop of [_round] lets through only a move the predicate accepts. *)
Lemma guards_round_until_valid (fuel : nat) (move : Z * Z) :
  guards J any_world (NimDriver._round_until_valid fuel move) accepted.
Proof.
  revert move. induction fuel as [|fuel IH]; intros move;
    cbn [NimDriver._round_until_valid].
  - intros w HJ _. exact HJ.
  - eapply guards_bind; [apply guards_move_is_valid|]. intros [|].
    + eapply guards_weaken; [apply (guards_ret move accepted)| |auto].
      intros w Hw. exact Hw.
    + apply guards_then; [auto with benign|]. intros _.
      apply guards_then; [auto with benign|]. intros move'.
      apply guards_then; [auto with benign|]. intros _.
      apply IH.
Qed.

Lemma guards_round (fuel : nat) :
  guards J any_world (NimDriver._round fuel) any_result.
Proof.
  unfold NimDriver._round.
  apply guards_then; [auto with benign|]. intros s.
  apply guards_then; [auto with benign|]. intros _.
  apply guards_then; [auto with benign|]. intros _.
  apply guards_then; [auto with benign|]. intros move0.
  apply guards_then; [auto with benign|]. intros _.
  eapply guards_bind; [apply guards_round_until_valid|]. intros move.
  eapply guards_bind; [apply guards_play|]. intros u.
  eapply guards_weaken with (P' := any_world) (Q' := any_result); [|auto|auto].
  apply guards_then; [auto with benign|]. intros s'.
  apply guards_then; [auto with benign|]. intros _.
  apply guards_then; [auto with benign|]. intros _.
  apply guards_then; [auto with benign|]. intros _.
  apply guards_then; [auto with benign|]. intros [|]; cbn [negb].
  - eapply guards_bind; [apply guards_random_move|]. intros move'.
    eapply guards_bind; [apply guards_play|]. intros u'.
    eapply guards_weaken with (P' := any_world) (Q' := any_result);
      [|auto|auto].
    apply guards_then; [auto with benign|]. intros [|]; cbn [negb].
    + apply guards_benign. auto with benign.
    + apply guards_benign. benign_steps.
  - apply guards_benign. benign_steps.
Qed.

Lemma guards_driver_play (fuel : nat) :
  guards J any_world (NimDriver.play fuel) any_result.
Proof.
  induction fuel as [|fuel IH]; cbn [NimDriver.play].
  - intros w HJ _. exact HJ.
  - eapply guards_bind; [apply guards_round|]. intros [|].
    + exact IH.
    + apply guards_benign. auto with benign.
Qed.

End Guards.

(** ** Integer literals *)

Lemma space_not_digit (c : ascii) : is_space c = true -> is_digit c = false.
Proof. destruct c as [[] [] [] [] [] [] [] []]; vm_compute; congruence. Qed.

Lemma space_not_underscore (c : ascii) :
  is_space c = true -> is_underscore c = false.
Proof. destruct c as [[] [] [] [] [] [] [] []]; vm_compute; congruence. Qed.

Lemma digit_not_underscore (c : ascii) :
  is_digit c = true -> is_underscore c = false.
Proof. destruct c as [[] [] [] [] [] [] [] []]; vm_compute; congruence. Qed.

Lemma digit_not_space (c : ascii) : is_digit c = true -> is_space c = false.
Proof. destruct c as [[] [] [] [] [] [] [] []]; vm_compute; congruence. Qed.

Lemma plus_is_plain (c : ascii) :
  (code c =? 43) = true ->
  is_digit c = false /\ is_underscore c = false /\ is_space c = false.
Proof. destruct c as [[] [] [] [] [] [] [] []]; vm_compute; auto; congruence. Qed.

Lemma minus_is_plain (c : ascii) :
  (code c =? 45) = true ->
  is_digit c = false /\ is_underscore c = false /\ is_space c = false.
Proof. destruct c as [[] [] [] [] [] [] [] []]; vm_compute; auto; congruence. Qed.

Lemma skip_spaces_cons_empty (c : ascii) (s : string) :
  skip_spaces (String c s) = EmptyString ->
  is_space c = true /\ skip_spaces s = EmptyString.
Proof. cbn. destruct (is_space c); [auto|discriminate]. Qed.

(** A text of white space has no digit and no underscore. *)
Lemma spaces_plain (s : string) :
  skip_spaces s = EmptyString ->
  digit_count s = 0 /\ remove_underscores s = s /\
  forall prev, underscores_from prev s = true.
Proof.
  induction s as [|c s IH]; [cbn; auto|].
  intros [Hc Hs]%skip_spaces_cons_empty.
  destruct (IH Hs) as (Hd & Hr & Hu). cbn.
  rewrite (space_not_digit c Hc), (space_not_underscore c Hc), Hd, Hr, Hu.
  auto.
Qed.

(** Soundness of the digit scan, from a point after a digit or an
    underscore: when it succeeds and only white space follows, the
    underscores stand between digits and the text without them is a plain
    run of digits of the same value. *)
Lemma scan_digits_sound (s : string) :
  forall (prev : ascii) (acc d v n : Z) (rest : string),
    scan_digits s prev acc d = Some (v, n, rest) ->
    skip_spaces rest = EmptyString ->
    (is_digit prev || is_underscore prev) = true ->
    (is_underscore prev = true -> starts_with_digit s = true) /\
    underscores_from prev s = true /\
    take_digits (remove_underscores s) acc = (v, rest) /\
    n = d + digit_count s.
Proof.
  induction s as [|c s IH]; intros prev acc d v n rest Hscan Hrest Hprev.
  - cbn in Hscan |- *. destruct (is_underscore prev); [discriminate|].
    injection Hscan as <- <- <-. repeat split; [discriminate|lia].
  - cbn [scan_digits] in Hscan.
    cbn [starts_with_digit underscores_from remove_underscores digit_count].
    destruct (is_digit c) eqn:Hd.
    + apply IH in Hscan as (_ & Hu & Ht & Hn);
        [|assumption|rewrite Hd; reflexivity].
      rewrite (digit_not_underscore c Hd). cbn [take_digits].
      rewrite Hd, Hu, Ht. repeat split; lia.
    + destruct (is_underscore c) eqn:Hc.
      * destruct (is_underscore prev) eqn:Hp; [discriminate|].
        rewrite orb_false_r in Hprev.
        apply IH in Hscan as (Hs & Hu & Ht & Hn);
          [|assumption|rewrite Hc; apply orb_true_r].
        rewrite Hprev, (Hs Hc), Hu, Ht.
        repeat split; [discriminate|lia].
      * destruct (is_underscore prev) eqn:Hp; [discriminate|].
        injection Hscan as <- <- <-.
        destruct (spaces_plain _ Hrest) as (Hdc & Hrm & Hus).
        specialize (Hus prev).
        cbn [underscores_from remove_underscores digit_count] in Hdc, Hrm, Hus.
        rewrite Hd, Hc in *. injection Hrm as Hrm.
        cbn [take_digits]. rewrite Hd, Hrm, Hus.
        repeat split; [discriminate|lia].
Qed.

(** Completeness of the digit scan. *)
Lemma scan_digits_complete (s : string) :
  forall (prev : ascii) (acc d v : Z) (rest' : string),
    underscores_from prev s = true ->
    take_digits (remove_underscores s) acc = (v, rest') ->
    skip_spaces rest' = EmptyString ->
    (is_digit prev || is_underscore prev) = true ->
    (is_underscore prev = true -> starts_with_digit s = true) ->
    exists n rest,
      scan_digits s prev acc d = Some (v, n, rest) /\
      n = d + digit_count s /\ skip_spaces rest = EmptyString.
Proof.
  induction s as [|c s IH]; intros prev acc d v rest' Hu Ht Hrest Hprev Hstart.
  - cbn in *.
    destruct (is_underscore prev); [specialize (Hstart eq_refl); discriminate|].
    injection Ht as <- <-. exists d, EmptyString.
    repeat split; [lia].
  - cbn [scan_digits underscores_from remove_underscores digit_count] in *.
    destruct (is_digit c) eqn:Hd.
    + rewrite (digit_not_underscore c Hd) in *. cbn in Hu, Ht. rewrite Hd in Ht.
      destruct (IH c (acc * 10 + digit_value c) (d + 1) v rest')
        as (n & rest & Hscan & Hn & Hr); try assumption.
      { rewrite Hd. reflexivity. }
      { rewrite (digit_not_underscore c Hd). discriminate. }
      exists n, rest. repeat split; [assumption|lia|assumption].
    + destruct (is_underscore c) eqn:Hc.
      * apply andb_prop in Hu as [[Hp Hs]%andb_prop Hu].
        rewrite (digit_not_underscore prev Hp).
        destruct (IH c acc d v rest') as (n & rest & Hscan & Hn & Hr);
          try assumption.
        { rewrite Hc. apply orb_true_r. }
        { intros _. exact Hs. }
        exists n, rest. repeat split; [assumption|lia|assumption].
      * cbn in Hu, Ht. rewrite Hd in Ht. injection Ht as <- <-.
        destruct (is_underscore prev) eqn:Hp.
        { specialize (Hstart eq_refl). cbn in Hstart. congruence. }
        apply skip_spaces_cons_empty in Hrest as [Hsp Hrest].
        assert (Hplain : remove_underscores s = s /\ digit_count s = 0).
        { clear IH Hstart Hprev Hp. revert c Hu Hd Hc Hsp Hrest.
          induction s as [|c' s IHs]; intros c Hu Hd Hc Hsp Hrest; [auto|].
          cbn [underscores_from remove_underscores digit_count] in *.
          destruct (is_underscore c') eqn:Hc'.
          - rewrite Hd in Hu. discriminate.
          - cbn in Hu. apply skip_spaces_cons_empty in Hrest as [Hsp' Hrest].
            destruct (IHs c' Hu (space_not_digit _ Hsp') Hc' Hsp' Hrest)
              as [-> ->].
            rewrite (space_not_digit _ Hsp'). auto. }
        destruct Hplain as [Hrm Hdc]. rewrite Hrm in Hrest.
        exists d, (String c s). repeat split.
        -- lia.
        -- cbn. rewrite Hsp. exact Hrest.
Qed.

Lemma digit_count_nonneg (s : string) : 0 <= digit_count s.
Proof.
  induction s as [|c s IH]; cbn [digit_count]; [lia|].
  destruct (is_digit c); lia.
Qed.

(** The digits of a literal: what the interpreter takes is what is left of
    a plain run of digits when single underscores are put between digits. *)
Lemma long_from_string_base_iff (limit : Z) (s : string) (prev : ascii) (v : Z) :
  is_digit prev = false ->
  long_from_string_base limit s = Some v <->
  underscores_from prev s = true /\
  plain_digits (remove_underscores s) = Some v /\
  within_limit limit (digit_count s) = true.
Proof.
  intros Hprev. destruct s as [|c s]; [cbn; intuition discriminate|].
  unfold long_from_string_base, plain_digits, within_limit.
  cbn [scan_digits underscores_from remove_underscores digit_count].
  destruct (is_underscore c) eqn:Hc.
  { rewrite Hprev. cbn. intuition discriminate. }
  cbn [take_digits]. destruct (is_digit c) eqn:Hd.
  2:{ cbn. intuition discriminate. }
  cbn [andb]. split.
  - destruct (scan_digits s c (0 * 10 + digit_value c) (0 + 1))
      as [[[v' n] rest]|] eqn:Hscan; [|discriminate].
    destruct (n =? 0); [discriminate|].
    destruct (skip_spaces rest) eqn:Hrest; [|discriminate].
    apply scan_digits_sound in Hscan as (_ & Hu & Ht & Hn);
      [|assumption|rewrite Hd; reflexivity].
    rewrite Hu, Ht, Hrest. replace (1 + digit_count s) with n by lia.
    destruct (_ && _ && _); [discriminate|]. auto.
  - intros (Hu & Hp & Hlim).
    destruct (take_digits (remove_underscores s) (0 * 10 + digit_value c))
      as [v' rest'] eqn:Ht.
    destruct (skip_spaces rest') eqn:Hrest; [|discriminate].
    injection Hp as ->.
    destruct (scan_digits_complete s c (0 * 10 + digit_value c) (0 + 1) v rest')
      as (n & rest & Hscan & Hn & Hr); try assumption.
    { rewrite Hd. reflexivity. }
    { rewrite (digit_not_underscore c Hd). discriminate. }
    rewrite Hscan, Hr. pose proof (digit_count_nonneg s).
    destruct (Z.eqb_spec n 0); [lia|].
    replace (1 + digit_count s) with n in Hlim by lia.
    destruct (_ && _ && _); [discriminate|reflexivity].
Qed.

Lemma header_spaces (line : string) :
  forall prev : ascii,
    is_digit prev = false ->
    digit_count line = digit_count (skip_spaces line) /\
    skip_spaces (remove_underscores line) =
      skip_spaces (remove_underscores (skip_spaces line)) /\
    exists prev',
      is_digit prev' = false /\
      underscores_from prev line = underscores_from prev' (skip_spaces line).
Proof.
  induction line as [|c l IH]; intros prev Hprev.
  - cbn. eauto.
  - cbn [skip_spaces]. destruct (is_space c) eqn:Hs; [|eauto].
    destruct (IH c (space_not_digit c Hs)) as (Hd & Hr & prev' & Hp & Hu).
    cbn [digit_count remove_underscores underscores_from].
    rewrite (space_not_digit c Hs), (space_not_underscore c Hs).
    cbn [skip_spaces]. rewrite Hs. repeat split; [lia|assumption|].
    exists prev'. auto.
Qed.

Lemma skip_spaces_head (line : string) (c : ascii) (s : string) :
  skip_spaces line = String c s -> is_space c = false.
Proof.
  induction line as [|c' l IH]; cbn; [discriminate|].
  destruct (is_space c') eqn:Hs; [assumption|]. intros [= <- <-]. exact Hs.
Qed.

Lemma header_sign (s0 : string) (prev : ascii) :
  is_digit prev = false ->
  (forall c t, s0 = String c t -> is_space c = false) ->
  digit_count s0 = digit_count (take_sign s0).2 /\
  (starts_with_underscore (take_sign s0).2 = false ->
   take_sign (skip_spaces (remove_underscores s0)) =
     ((take_sign s0).1, remove_underscores (take_sign s0).2)) /\
  exists prev',
    is_digit prev' = false /\
    underscores_from prev s0 = underscores_from prev' (take_sign s0).2.
Proof.
  intros Hprev Hhead. destruct s0 as [|c t]; [cbn; eauto|].
  specialize (Hhead c t eq_refl). unfold take_sign.
  destruct (code c =? 43) eqn:Hplus; [|destruct (code c =? 45) eqn:Hminus].
  - destruct (plus_is_plain c Hplus) as (Hd & Hu & Hs).
    cbn [fst snd digit_count remove_underscores underscores_from skip_spaces].
    rewrite Hd, Hu. cbn [skip_spaces]. rewrite Hs, Hplus.
    repeat split; eauto.
  - destruct (minus_is_plain c Hminus) as (Hd & Hu & Hs).
    cbn [fst snd digit_count remove_underscores underscores_from skip_spaces].
    rewrite Hd, Hu. cbn [skip_spaces]. rewrite Hs, Hplus, Hminus.
    repeat split; eauto.
  - cbn [fst snd starts_with_underscore]. repeat split; [|eauto].
    intros Hu. cbn [remove_underscores]. rewrite Hu. cbn [skip_spaces].
    rewrite Hhead, Hplus, Hminus. reflexivity.
Qed.

(** What [int] accepts: the conventional representations of a signed
    integer in which single underscores may stand between digits, up to the
    interpreter's limit on the number of digits. *)
Lemma py_int_iff (limit : Z) (line : bytes) (v : Z) :
  py_int limit line = Some v <->
  underscores_between_digits line = true /\
  conventional_int (remove_underscores line) = Some v /\
  within_limit limit (digit_count line) = true.
Proof.
  unfold py_int, conventional_int, underscores_between_digits.
  destruct (header_spaces line "000"%char eq_refl)
    as (Hd & Hr & prev1 & Hp1 & Hu1).
  destruct (header_sign (skip_spaces line) prev1 Hp1 (skip_spaces_head line))
    as (Hd' & Hsign & prev2 & Hp2 & Hu2).
  rewrite Hu1, Hu2, Hd, Hd'.
  assert (Hpair : take_sign (skip_spaces line) =
                  ((take_sign (skip_spaces line)).1,
                   (take_sign (skip_spaces line)).2))
    by apply surjective_pairing.
  rewrite Hpair. clear Hpair.
  set (sign := (take_sign (skip_spaces line)).1) in *.
  set (s := (take_sign (skip_spaces line)).2) in *.
  assert (Hno : underscores_from prev2 s = true ->
                starts_with_underscore s = false).
  { destruct s as [|c s']; [reflexivity|]. cbn.
    destruct (is_underscore c); [|reflexivity]. rewrite Hp2. discriminate. }
  split.
  - destruct (long_from_string_base limit s) as [v'|] eqn:Hl; [|discriminate].
    intros [= <-].
    apply (long_from_string_base_iff limit s prev2 v' Hp2) in Hl
      as (Hu & Hpl & Hlim).
    rewrite Hr, (Hsign (Hno Hu)), Hpl. auto.
  - intros (Hu & Hconv & Hlim).
    rewrite Hr, (Hsign (Hno Hu)) in Hconv.
    destruct (plain_digits (remove_underscores s)) as [v'|] eqn:Hpl;
      [|discriminate].
    injection Hconv as <-.
    rewrite (proj2 (long_from_string_base_iff limit s prev2 v' Hp2)); auto.
Qed.

Lemma plain_facts (s : string) :
  plain s = true ->
  remove_underscores s = s /\ forall prev, underscores_from prev s = true.
Proof.
  induction s as [|c s IH]; cbn [plain remove_underscores underscores_from];
    [auto|].
  destruct (is_underscore c); [discriminate|]. cbn [negb andb].
  intros Hs. destruct (IH Hs) as [-> Hu]. auto.
Qed.

Lemma plain_skip_spaces (line : string) :
  plain (skip_spaces line) = true -> plain line = true.
Proof.
  induction line as [|c l IH]; cbn [skip_spaces plain]; [auto|].
  destruct (is_space c) eqn:Hs; [|auto].
  rewrite (space_not_underscore c Hs). exact IH.
Qed.

Lemma plain_take_sign (s : string) :
  plain (take_sign s).2 = true -> plain s = true.
Proof.
  destruct s as [|c t]; [auto|]. unfold take_sign.
  destruct (code c =? 43) eqn:Hplus; [|destruct (code c =? 45) eqn:Hminus].
  - destruct (plus_is_plain c Hplus) as (_ & Hu & _). cbn. rewrite Hu. auto.
  - destruct (minus_is_plain c Hminus) as (_ & Hu & _). cbn. rewrite Hu. auto.
  - auto.
Qed.

Lemma remove_underscores_length (s : string) :
  (String.length (remove_underscores s) <= String.length s)%nat.
Proof.
  induction s as [|c s IH]; cbn; [lia|].
  destruct (is_underscore c); cbn; lia.
Qed.

Lemma remove_underscores_fixed (s : string) :
  remove_underscores s = s -> plain s = true.
Proof.
  induction s as [|c s IH]; cbn [remove_underscores plain]; [reflexivity|].
  destruct (is_underscore c) eqn:Hc.
  - intros Hrm. pose proof (remove_underscores_length s) as Hlen.
    rewrite Hrm in Hlen. cbn in Hlen. lia.
  - intros [= Hrm]. exact (IH Hrm).
Qed.

Lemma plain_take_digits (s : string) :
  forall (acc v : Z) (rest : string),
    take_digits s acc = (v, rest) -> skip_spaces rest = EmptyString ->
    plain s = true.
Proof.
  induction s as [|c s IH]; intros acc v rest; [reflexivity|].
  cbn [take_digits]. destruct (is_digit c) eqn:Hd.
  - cbn [plain]. rewrite (digit_not_underscore c Hd). exact (IH _ _ _).
  - intros [= _ <-] Hrest.
    destruct (spaces_plain _ Hrest) as (_ & Hrm & _).
    exact (remove_underscores_fixed _ Hrm).
Qed.

Lemma conventional_plain (line : string) (v : Z) :
  conventional_int line = Some v -> plain line = true.
Proof.
  unfold conventional_int, plain_digits. intros H.
  apply plain_skip_spaces, plain_take_sign.
  destruct (take_sign (skip_spaces line)) as [sign s]. cbn [snd].
  destruct s as [|c s]; [discriminate|].
  destruct (is_digit c); [|discriminate].
  destruct (take_digits (String c s) 0) as [v' rest] eqn:Ht.
  destruct (skip_spaces rest) eqn:Hrest; [|discriminate].
  exact (plain_take_digits _ _ _ _ Ht Hrest).
Qed.

(** Every conventional representation within the limit is accepted, with
    its value. *)
Lemma conventional_accepted (limit : Z) (line : string) (v : Z) :
  conventional_int line = Some v ->
  within_limit limit (digit_count line) = true ->
  py_int limit line = Some v.
Proof.
  intros Hconv Hlim. apply py_int_iff.
  destruct (plain_facts line (conventional_plain line v Hconv)) as [Hrm Hu].
  unfold underscores_between_digits. rewrite Hrm, Hu. auto.
Qed.

(** ** The integer prompt *)

Lemma read_int_accepts (fuel : nat) (prompt : string) (w : world)
    (line : bytes) (rest : reader) (v : Z) :
  input w = Feed line rest ->
  py_int (max_str_digits w) line = Some v ->
  NimDriver._read_int (S fuel) prompt w =
  (Ok v, set_input rest (set_written (written w ++ [prompt_line prompt]) w)).
Proof.
  intros Hin Hint. cbn [NimDriver._read_int]. munfold.
  unfold write, drain, readline, try_int. munfold. cbn. rewrite Hin. cbn.
  rewrite Hint. reflexivity.
Qed.

Lemma read_int_rejects (fuel : nat) (prompt : string) (w : world)
    (line : bytes) (rest : reader) :
  input w = Feed line rest ->
  py_int (max_str_digits w) line = None ->
  NimDriver._read_int (S fuel) prompt w =
  NimDriver._read_int fuel prompt
    (set_input rest
       (set_written
          (written w ++ [prompt_line prompt; NimDriver.not_an_integer]) w)).
Proof.
  intros Hin Hint. cbn [NimDriver._read_int]. munfold.
  unfold write, drain, readline, try_int. munfold. cbn. rewrite Hin. cbn.
  rewrite Hint. unfold set_input, set_written. cbn.
  rewrite <- app_assoc. reflexivity.
Qed.

(** Any number of lines that are not integers, then one that is. *)
Lemma read_int_many (prompt : string) (bad : list bytes) :
  forall (fuel : nat) (w : world) (good : bytes) (rest : reader) (v : Z),
    Forall (fun l => py_int (max_str_digits w) l = None) bad ->
    py_int (max_str_digits w) good = Some v ->
    input w = feed bad (Feed good rest) ->
    (length bad < fuel)%nat ->
    NimDriver._read_int fuel prompt w =
    (Ok v,
     set_input rest
       (set_written
          (written w ++
           concat (map (fun _ => [prompt_line prompt; NimDriver.not_an_integer])
                       bad) ++
           [prompt_line prompt]) w)).
Proof.
  induction bad as [|l bad IH]; intros fuel w good rest v Hbad Hgood Hin Hfuel.
  - destruct fuel as [|fuel]; [cbn in Hfuel; lia|].
    rewrite (read_int_accepts fuel prompt w good rest v Hin Hgood).
    reflexivity.
  - destruct fuel as [|fuel]; [cbn in Hfuel; lia|].
    inversion Hbad as [|? ? Hl Hbad']; subst.
    rewrite (read_int_rejects fuel prompt w l (feed bad (Feed good rest))
               Hin Hl).
    rewrite (IH fuel
               (set_input (feed bad (Feed good rest))
                  (set_written
                     (written w ++
                      [prompt_line prompt; NimDriver.not_an_integer]) w))
               good rest v Hbad' Hgood eq_refl ltac:(cbn in Hfuel; lia)).
    unfold set_input, set_written. cbn. rewrite <- app_assoc. reflexivity.
Qed.

(** At end of file [int] is given the empty bytes object, which it
    rejects, whatever the limit. *)
Lemma py_int_empty (limit : Z) : py_int limit EmptyString = None.
Proof. reflexivity. Qed.

Lemma read_int_eof_step (fuel : nat) (prompt : string) (w : world) :
  input w = AtEof ->
  NimDriver._read_int (S fuel) prompt w =
  NimDriver._read_int fuel prompt
    (set_written
       (written w ++ [prompt_line prompt; NimDriver.not_an_integer]) w).
Proof.
  intros Hin. cbn [NimDriver._read_int]. munfold.
  unfold write, drain, readline, try_int. munfold. cbn. rewrite Hin. cbn.
  unfold set_written. cbn. rewrite <- app_assoc. reflexivity.
Qed.

Lemma ask_move_two_lines (fuel : nat) (w : world) (l1 l2 : bytes)
    (rest : reader) (p a : Z) :
  input w = Feed l1 (Feed l2 rest) ->
  py_int (max_str_digits w) l1 = Some p ->
  py_int (max_str_digits w) l2 = Some a ->
  NimDriver._ask_move (S fuel) w =
  (Ok (p, a),
   set_input rest
     (set_written
        (written w ++ [prompt_line NimDriver.pile_prompt;
                       prompt_line NimDriver.amount_prompt]) w)).
Proof.
  intros Hin H1 H2. unfold NimDriver._ask_move. munfold.
  rewrite (read_int_accepts fuel _ w l1 (Feed l2 rest) p Hin H1).
  rewrite (read_int_accepts fuel _
             (set_input (Feed l2 rest)
                (set_written
                   (written w ++ [prompt_line NimDriver.pile_prompt]) w))
             l2 rest a eq_refl H2).
  unfold set_input, set_written. cbn. rewrite <- app_assoc. reflexivity.
Qed.

(** At end of file the loop of [_read_int] goes round until the budget is
    used up, writing the prompt and the invalid-integer message each time. *)
Lemma read_int_eof (prompt : string) (fuel : nat) :
  forall w : world,
    input w = AtEof ->
    NimDriver._read_int fuel prompt w =
    (OutOfFuel,
     set_written
       (written w ++
        concat (replicate fuel [prompt_line prompt; NimDriver.not_an_integer]))
       w).
Proof.
  induction fuel as [|fuel IH]; intros w Hin.
  - cbn. unfold set_written. rewrite app_nil_r. destruct w; reflexivity.
  - rewrite (read_int_eof_step fuel prompt w Hin).
    rewrite IH by exact Hin. unfold set_written. cbn.
    rewrite <- !app_assoc. reflexivity.
Qed.

Lemma bind_step {A B} (c : M A) (k : A -> M B) (w w' : world) (a : A) :
  c w = (Ok a, w') -> (c ≫= k) w = k a w'.
Proof. intros H. munfold. rewrite H. reflexivity. Qed.

Lemma bind_stop {A B} (c : M A) (k : A -> M B) (w w' : world) :
  c w = (OutOfFuel, w') -> (c ≫= k) w = (OutOfFuel, w').
Proof. intros H. munfold. rewrite H. reflexivity. Qed.

Lemma ask_move_eof (fuel : nat) (w : world) :
  input w = AtEof ->
  NimDriver._ask_move fuel w =
  (OutOfFuel,
   set_written
     (written w ++
      concat (replicate fuel [prompt_line NimDriver.pile_prompt;
                              NimDriver.not_an_integer])) w).
Proof.
  intros Hin. unfold NimDriver._ask_move.
  apply bind_stop. exact (read_int_eof _ fuel w Hin).
Qed.

(** A round at end of file: the piles are shown, then the pile prompt goes
    round. *)
Lemma round_eof (fuel : nat) (w : world) :
  input w = AtEof ->
  NimDriver._round fuel w =
  (OutOfFuel,
   set_written
     ((written w ++ [render (piles w)]) ++
      concat (replicate fuel [prompt_line NimDriver.pile_prompt;
                              NimDriver.not_an_integer])) w).
Proof.
  intros Hin. unfold NimDriver._round.
  erewrite bind_step by reflexivity.
  erewrite bind_step by reflexivity.
  erewrite bind_step by reflexivity.
  apply bind_stop.
  rewrite ask_move_eof by exact Hin. reflexivity.
Qed.

(** ** The session as a whole *)

Lemma benign_close : benign close.
Proof. intros w. split; [reflexivity|discriminate]. Qed.

Lemma guards_state {A} (J : list Z -> Prop) (P : world -> Prop) (c : M A)
    (Q : A -> world -> Prop) (w : world) :
  guards J P c Q -> J (piles w) -> P w -> J (piles (c w).2).
Proof.
  intros Hc HJ HP. specialize (Hc w HJ HP).
  destruct (c w) as [[a|e| |] w']; cbn; tauto.
Qed.

Lemma guards_no_assertion {A} (J : list Z -> Prop) (P : world -> Prop)
    (c : M A) (Q : A -> world -> Prop) (w : world) :
  guards J P c Q -> J (piles w) -> P w -> (c w).1 <> Raise AssertionError.
Proof.
  intros Hc HJ HP. specialize (Hc w HJ HP).
  destruct (c w) as [[a|e| |] w']; cbn; try discriminate.
  destruct Hc as [_ He]. congruence.
Qed.

Lemma guards_cb_body (J : list Z -> Prop) (fuel : nat) :
  (forall p a w w',
      J (piles w) -> Nim.play p a w = (Ok tt, w') -> J (piles w')) ->
  guards J any_world
    (NimDriver.play fuel ≫= (fun _ => close ≫= (fun _ => mret tt)))
    any_result.
Proof.
  intros HJ. eapply guards_bind; [apply (guards_driver_play J HJ)|]. intros u.
  eapply guards_weaken with (P' := any_world) (Q' := any_result); [|auto|auto].
  apply guards_benign. apply benign_bind; [apply benign_close|].
  intros _. apply benign_ret.
Qed.

Lemma cb_unfold (fuel : nat) (w : world) :
  NimDriver.cb fuel w =
  (NimDriver.play fuel ≫= (fun _ => close ≫= (fun _ => mret tt)))
    (set_piles Nim.init w).
Proof. reflexivity. Qed.

(** * The claims *)

(** C1, at the inputs where the code departs from it: in a new game the
    predicate raises an [IndexError] for pile [-4], and accepts pile [-1],
    where the claim has it return false for every pile index outside
    [0, pile_count). *)
Theorem move_is_valid_negative_pile (w : world) :
  Nim.move_is_valid (-4) 1 (set_piles Nim.init w)
    = (Raise IndexError, set_piles Nim.init w) /\
  Nim.move_is_valid (-1) 1 (set_piles Nim.init w)
    = (Ok true, set_piles Nim.init w).
Proof. split; reflexivity. Qed.

(** C2, at the input where the code departs from it: at end of file
    [_read_int] does not end.  Whatever the budget [fuel], the loop is still
    running when it is used up, and by then it has asked again and written
    the invalid-integer message [fuel] times; so does the whole session,
    which never reaches [close].  Only a read that raises ends the loop, with
    nothing written after the prompt. *)
Theorem read_int_retries_at_eof (fuel : nat) (prompt : string) (w : world) :
  NimDriver._read_int fuel prompt (set_input AtEof w) =
    (OutOfFuel,
     set_input AtEof
       (set_written
          (written w ++
           concat (replicate fuel
                     [prompt_line prompt; NimDriver.not_an_integer])) w)) /\
  (NimDriver.cb (S fuel) (set_input AtEof w)).1 = OutOfFuel /\
  closed (NimDriver.cb (S fuel) (set_input AtEof w)).2 = closed w /\
  NimDriver._read_int (S fuel) prompt (set_input Broken w) =
    (Raise ConnectionResetError,
     set_input Broken (set_written (written w ++ [prompt_line prompt]) w)).
Proof.
  split; [exact (read_int_eof prompt fuel (set_input AtEof w) eq_refl)|].
  assert (Hrun : NimDriver.cb (S fuel) (set_input AtEof w) =
    (OutOfFuel,
     set_input AtEof
       (set_written
          ((written w ++ [render Nim.init]) ++
           concat (replicate (S fuel)
                     [prompt_line NimDriver.pile_prompt;
                      NimDriver.not_an_integer]))
          (set_piles Nim.init w)))).
  { rewrite cb_unfold. apply bind_stop. cbn [NimDriver.play].
    apply bind_stop. rewrite round_eof by reflexivity. reflexivity. }
  rewrite Hrun. cbn [fst snd]. repeat split.
Qed.

(** C3: for a valid move [(p, a)] with [0 <= p < 3] and [1 <= a <= piles[p]],
    [play] returns, takes exactly [a] from pile [p], and leaves every other
    pile, the number of piles and the rest of the world as they were. *)
Theorem play_takes_from_one_pile (w : world) (p a v : Z) :
  length (piles w) = 3%nat ->
  0 <= p < 3 ->
  piles w !! Z.to_nat p = Some v ->
  1 <= a <= v ->
  exists w',
    Nim.play p a w = (Ok tt, w') /\
    piles w' !! Z.to_nat p = Some (v - a) /\
    (forall q : nat, q <> Z.to_nat p -> piles w' !! q = piles w !! q) /\
    length (piles w') = length (piles w) /\
    w' = set_piles (piles w') w.
Proof.
  intros Hlen Hp Hv Ha.
  exists (set_piles (<[Z.to_nat p := v - a]> (piles w)) w).
  split.
  - rewrite play_eq.
    rewrite (move_is_valid_front p a v w) by (auto; lia). cbn [fst].
    destruct (Z.geb_spec v a); [|lia].
    rewrite py_index_front by lia. rewrite Hv. reflexivity.
  - cbn [piles set_piles]. repeat split.
    + apply list_lookup_insert_eq. lia.
    + intros q Hq. apply list_lookup_insert_ne. congruence.
    + apply length_insert.
Qed.

Lemma play_takes_from_one_pile_witness :
  exists w',
    Nim.play 0 3 start = (Ok tt, w') /\
    piles w' !! Z.to_nat 0 = Some (3 - 3) /\
    (forall q : nat, q <> Z.to_nat 0 -> piles w' !! q = piles start !! q) /\
    length (piles w') = length (piles start) /\
    w' = set_piles (piles w') start.
Proof.
  apply (play_takes_from_one_pile start 0 3 3);
    [reflexivity|lia|reflexivity|lia].
Defined.

(** C4: in every reachable state [can_continue] returns true exactly when
    the sum of the piles is not zero, and false exactly when every pile is
    zero. *)
Theorem can_continue_iff (w : world) :
  reachable (piles w) ->
  exists b : bool,
    Nim.can_continue w = (Ok b, w) /\
    (b = true <-> total (piles w) <> 0) /\
    (b = false <-> Forall (fun x => x = 0) (piles w)).
Proof.
  intros Hreach. destruct (reachable_state_ok _ Hreach) as [_ Hnonneg].
  exists (negb (py_sum (piles w) =? 0)). split; [reflexivity|].
  rewrite py_sum_total. pose proof (total_zero_iff _ Hnonneg) as Hzero.
  destruct (Z.eqb_spec (total (piles w)) 0) as [Heq|Hne]; cbn [negb].
  - split; [split; [discriminate|contradiction]|].
    split; [intros _; apply Hzero; exact Heq|reflexivity].
  - split; [split; [intros _; exact Hne|reflexivity]|].
    split; [discriminate|]. intros Hall. apply Hzero in Hall. contradiction.
Qed.

Lemma can_continue_iff_witness :
  exists b : bool,
    Nim.can_continue start = (Ok b, start) /\
    (b = true <-> total (piles start) <> 0) /\
    (b = false <-> Forall (fun x => x = 0) (piles start)).
Proof. apply (can_continue_iff start). exact reach_init. Defined.

(** C5: when no pile is negative and [can_continue] is true, [random_move]
    returns, whatever the random module draws, a pile that is not empty and
    an amount between one and its size, and changes no pile; on the piles
    [0, 2, 0] it returns pile 1 with an amount of 1 or 2. *)
Theorem random_move_legal (w : world) :
  Forall (fun x => 0 <= x) (piles w) ->
  (Nim.can_continue w).1 = Ok true ->
  (exists p a v w',
      Nim.random_move w = (Ok (p, a), w') /\ piles w' = piles w /\
      0 <= p < Z.of_nat (length (piles w)) /\
      piles w !! Z.to_nat p = Some v /\ 0 < v /\ 1 <= a <= v) /\
  (piles w = [0; 2; 0] ->
   exists a w', Nim.random_move w = (Ok (1, a), w') /\ 1 <= a <= 2).
Proof.
  intros Hnonneg Hgo. cbn in Hgo. rewrite py_sum_total in Hgo.
  destruct (Z.eqb_spec (total (piles w)) 0) as [|Hne]; [discriminate|].
  destruct (total_nonzero_positive _ Hnonneg Hne) as (k0 & v0 & Hk0 & Hv0).
  destruct (random_move_ok w k0 v0 Hk0 Hv0)
    as (p & a & v & w' & Hmove & Hp & H0 & Hv & Hpos & Ha).
  split.
  - exists p, a, v, w'. apply lookup_lt_Some in Hv as Hlt.
    repeat split; try assumption; lia.
  - intros Hpiles. rewrite Hpiles in Hv.
    assert (Hp1 : p = 1 /\ v = 2).
    { destruct (Z.to_nat p) as [|[|[|n]]] eqn:Hn; cbn in Hv;
        try (injection Hv as <-; lia); discriminate. }
    destruct Hp1 as [-> ->]. exists a, w'. auto.
Qed.

Lemma random_move_legal_witness :
  (exists p a v w',
      Nim.random_move (set_piles [0; 2; 0] start) = (Ok (p, a), w') /\
      piles w' = [0; 2; 0] /\ 0 <= p < 3 /\
      [0; 2; 0] !! Z.to_nat p = Some v /\ 0 < v /\ 1 <= a <= v) /\
  (exists a w',
      Nim.random_move (set_piles [0; 2; 0] start) = (Ok (1, a), w') /\
      1 <= a <= 2).
Proof.
  destruct (random_move_legal (set_piles [0; 2; 0] start)) as [Hany Hone].
  - repeat constructor; lia.
  - reflexivity.
  - split; [exact Hany|exact (Hone eq_refl)].
Defined.

(** C6: [play] with a move the predicate rejects raises an
    [AssertionError] and leaves the world as it was; so it does, with the
    predicate's own exception, when the predicate raises; with a move the
    predicate accepts it returns. *)
Theorem play_asserts_validity (w : world) (p a : Z) :
  ((Nim.move_is_valid p a w).1 = Ok false ->
   Nim.play p a w = (Raise AssertionError, w)) /\
  (forall e, (Nim.move_is_valid p a w).1 = Raise e ->
             Nim.play p a w = (Raise e, w)) /\
  ((Nim.move_is_valid p a w).1 = Ok true ->
   exists w', Nim.play p a w = (Ok tt, w')).
Proof.
  rewrite play_eq. repeat split.
  - intros ->. reflexivity.
  - intros e ->. reflexivity.
  - intros Hacc. rewrite Hacc.
    destruct (move_is_valid_true _ _ _ Hacc) as (k & v & -> & -> & _). eauto.
Qed.

Lemma play_asserts_validity_witness :
  Nim.play 5 1 start = (Raise AssertionError, start) /\
  Nim.play 0 4 start = (Raise AssertionError, start) /\
  Nim.play (-4) 1 start = (Raise IndexError, start) /\
  exists w', Nim.play 1 4 start = (Ok tt, w').
Proof.
  split; [|split; [|split]].
  - apply (proj1 (play_asserts_validity start 5 1)). reflexivity.
  - apply (proj1 (play_asserts_validity start 0 4)). reflexivity.
  - apply (proj1 (proj2 (play_asserts_validity start (-4) 1))). reflexivity.
  - apply (proj2 (proj2 (play_asserts_validity start 1 4))). reflexivity.
Defined.

(** C7: the initial piles [3, 4, 5] are three piles, none negative; every
    call of [play] that returns keeps it so, hence every reachable state has
    it; and so has the world a round of the driver, or a whole session,
    ends in, however it ends. *)
Theorem piles_invariant :
  state_ok Nim.init /\
  (forall w p a w',
      state_ok (piles w) -> Nim.play p a w = (Ok tt, w') ->
      state_ok (piles w')) /\
  (forall l, reachable l -> state_ok l) /\
  (forall fuel w,
      state_ok (piles w) -> state_ok (piles (NimDriver._round fuel w).2)) /\
  (forall fuel w, state_ok (piles (NimDriver.cb fuel w).2)).
Proof.
  assert (Hplay : forall p a w w',
             state_ok (piles w) -> Nim.play p a w = (Ok tt, w') ->
             state_ok (piles w')).
  { intros p a w w'. apply play_state_ok. }
  split; [exact state_ok_init|].
  split; [intros w p a w'; apply play_state_ok|].
  split; [exact reachable_state_ok|]. split.
  - intros fuel w Hok.
    exact (guards_state state_ok any_world _ any_result w
             (guards_round state_ok Hplay fuel) Hok I).
  - intros fuel w. rewrite cb_unfold.
    exact (guards_state state_ok any_world _ any_result
             (set_piles Nim.init w)
             (guards_cb_body state_ok fuel Hplay) state_ok_init I).
Qed.

Lemma piles_invariant_witness :
  state_ok (piles (set_piles [3; 3; 5] start)) /\
  state_ok (piles (NimDriver._round 2 start).2).
Proof.
  destruct piles_invariant as (Hinit & Hplay & _ & Hround & _). split.
  - apply (Hplay start 1 1 _ Hinit). reflexivity.
  - apply (Hround 2%nat start). exact Hinit.
Defined.

Lemma round_until_valid_accepts (fuel : nat) (move : Z * Z) (w : world) :
  accepted move w ->
  NimDriver._round_until_valid (S fuel) move w = (Ok move, w).
Proof.
  intros Hacc. cbn [NimDriver._round_until_valid].
  pose proof (move_is_valid_world move.1 move.2 w) as Hw.
  unfold accepted in Hacc.
  destruct (Nim.move_is_valid move.1 move.2 w) as [r w1] eqn:E.
  cbn in Hacc, Hw. subst. rewrite (bind_step _ _ w w true E). reflexivity.
Qed.

Lemma round_until_valid_rejects (fuel : nat) (move : Z * Z) (w : world) :
  (Nim.move_is_valid move.1 move.2 w).1 = Ok false ->
  NimDriver._round_until_valid (S fuel) move w =
  (NimDriver._ask_move (S fuel) ≫= fun move' =>
   drain ≫= fun _ => NimDriver._round_until_valid fuel move')
    (set_written (written w ++ [NimDriver.not_a_valid_move]) w).
Proof.
  intros Hrej. cbn [NimDriver._round_until_valid].
  pose proof (move_is_valid_world move.1 move.2 w) as Hw.
  destruct (Nim.move_is_valid move.1 move.2 w) as [r w1] eqn:E.
  cbn in Hrej, Hw. subst. rewrite (bind_step _ _ w w false E).
  cbv beta iota.
  exact (bind_step (write NimDriver.not_a_valid_move) _ w _ tt eq_refl).
Qed.

(** The loop of [_round], for the pairs the predicate answers: the driver
    calls [play] only with a move the predicate accepts.
    While the predicate says no, the loop of [_round] writes
    [Not a valid move.] and asks again, the pile first and then the amount,
    and goes on with the new pair; it lets an accepted move through at once;
    whatever it does, the piles stay as they are, and a move it returns is
    accepted in the world it returns it in.  Hence the assertion of [play]
    never fails in a session. *)
Theorem driver_plays_only_accepted_moves (fuel : nat) (move : Z * Z)
    (w : world) :
  ((Nim.move_is_valid move.1 move.2 w).1 = Ok false ->
   forall l1 l2 rest p a,
     input w = Feed l1 (Feed l2 rest) ->
     py_int (max_str_digits w) l1 = Some p ->
     py_int (max_str_digits w) l2 = Some a ->
     NimDriver._round_until_valid (S fuel) move w =
     NimDriver._round_until_valid fuel (p, a)
       (set_input rest
          (set_written
             (written w ++ [NimDriver.not_a_valid_move;
                            prompt_line NimDriver.pile_prompt;
                            prompt_line NimDriver.amount_prompt]) w))) /\
  (accepted move w ->
   NimDriver._round_until_valid (S fuel) move w = (Ok move, w)) /\
  piles (NimDriver._round_until_valid fuel move w).2 = piles w /\
  (forall move',
      (NimDriver._round_until_valid fuel move w).1 = Ok move' ->
      accepted move' (NimDriver._round_until_valid fuel move w).2) /\
  (NimDriver._round fuel w).1 <> Raise AssertionError /\
  (NimDriver.cb fuel w).1 <> Raise AssertionError.
Proof.
  assert (Hplay : forall (p a : Z) (w0 w' : world),
             True -> Nim.play p a w0 = (Ok tt, w') -> True) by auto.
  split; [|split; [|split; [|split; [|split]]]].
  - intros Hrej l1 l2 rest p a Hin H1 H2.
    rewrite (round_until_valid_rejects fuel move w Hrej).
    erewrite bind_step.
    2:{ apply (ask_move_two_lines fuel _ l1 l2 rest p a); assumption. }
    erewrite bind_step by reflexivity.
    unfold set_input, set_written. cbn. rewrite <- app_assoc. reflexivity.
  - apply round_until_valid_accepts.
  - apply benign_round_until_valid.
  - intros move' Hret.
    pose proof (guards_round_until_valid (fun _ => True) fuel move w I I) as Hg.
    destruct (NimDriver._round_until_valid fuel move w) as [r w1].
    cbn in Hret |- *. subst r. tauto.
  - exact (guards_no_assertion (fun _ => True) any_world _ any_result w
             (guards_round (fun _ => True) Hplay fuel) I I).
  - rewrite cb_unfold.
    exact (guards_no_assertion (fun _ => True) any_world _ any_result
             (set_piles Nim.init w)
             (guards_cb_body (fun _ => True) fuel Hplay) I I).
Qed.

Lemma driver_plays_only_accepted_moves_witness :
  NimDriver._round_until_valid 2 (5, 1)
    (set_input (Feed ("0" +:+ nl) (Feed ("3" +:+ nl) Silent)) start) =
  (Ok (0, 3),
   set_input Silent
     (set_written [NimDriver.not_a_valid_move;
                   prompt_line NimDriver.pile_prompt;
                   prompt_line NimDriver.amount_prompt] start)).
Proof.
  set (w := set_input (Feed ("0" +:+ nl) (Feed ("3" +:+ nl) Silent)) start).
  destruct (driver_plays_only_accepted_moves 1%nat (5, 1) w) as [Hrej _].
  rewrite (Hrej eq_refl ("0" +:+ nl) ("3" +:+ nl) Silent 0 3
             eq_refl eq_refl eq_refl).
  clear Hrej.
  set (w' := set_input Silent _).
  destruct (driver_plays_only_accepted_moves 0%nat (0, 3) w')
    as (_ & Hacc & _).
  exact (Hacc eq_refl).
Defined.

Lemma not_accepted_literal (limit : Z) (line : bytes) :
  (forall v, ~ accepted_literal limit line v) -> py_int limit line = None.
Proof.
  intros Hno. destruct (py_int limit line) as [v|] eqn:Hint; [|reflexivity].
  apply py_int_iff in Hint. destruct (Hno v Hint).
Qed.

(** C9, as the code has it: the line [1_0], which is no conventional
    representation of an integer, is taken for ten. *)
Lemma read_int_accepts_underscores :
  conventional_int ("1_0" +:+ nl) = None /\
  NimDriver._read_int 1 NimDriver.pile_prompt
    (set_input (Feed ("1_0" +:+ nl) Silent) start) =
  (Ok 10,
   set_input Silent
     (set_written [prompt_line NimDriver.pile_prompt] start)).
Proof. split; reflexivity. Qed.

(** C9, amended: of the lines the stream delivers, those within its limit
    of 64 KiB, the integer prompt accepts exactly the conventional
    representations of a signed integer, white space around them tolerated,
    in which single underscores may stand between digits, up to the
    interpreter's limit on digits; every conventional representation within
    that limit is among them.  For any other such line it writes the
    invalid-integer message and goes on with the same prompt on the next
    line; so any number of such lines can precede an accepted one; and the
    piles are never touched. *)
Theorem read_int_accepts_exactly (fuel : nat) (prompt : string) (w : world) :
  (forall line rest v,
      input w = Feed line rest ->
      deliverable line ->
      accepted_literal (max_str_digits w) line v ->
      NimDriver._read_int (S fuel) prompt w =
      (Ok v,
       set_input rest (set_written (written w ++ [prompt_line prompt]) w))) /\
  (forall line v,
      conventional_int line = Some v ->
      within_limit (max_str_digits w) (digit_count line) = true ->
      accepted_literal (max_str_digits w) line v) /\
  (forall line rest,
      input w = Feed line rest ->
      deliverable line ->
      (forall v, ~ accepted_literal (max_str_digits w) line v) ->
      NimDriver._read_int (S fuel) prompt w =
      NimDriver._read_int fuel prompt
        (set_input rest
           (set_written
              (written w ++ [prompt_line prompt; NimDriver.not_an_integer])
              w))) /\
  (forall bad good rest v,
      Forall deliverable (bad ++ [good]) ->
      Forall (fun l => forall v, ~ accepted_literal (max_str_digits w) l v)
             bad ->
      accepted_literal (max_str_digits w) good v ->
      input w = feed bad (Feed good rest) ->
      (length bad < fuel)%nat ->
      NimDriver._read_int fuel prompt w =
      (Ok v,
       set_input rest
         (set_written
            (written w ++
             concat (map (fun _ => [prompt_line prompt;
                                    NimDriver.not_an_integer]) bad) ++
             [prompt_line prompt]) w))) /\
  piles (NimDriver._read_int fuel prompt w).2 = piles w.
Proof.
  split; [|split; [|split; [|split]]].
  - intros line rest v Hin _ Hacc.
    apply (read_int_accepts fuel prompt w line rest v Hin).
    apply py_int_iff. exact Hacc.
  - intros line v Hconv Hlim. apply py_int_iff.
    apply conventional_accepted; assumption.
  - intros line rest Hin _ Hno.
    apply (read_int_rejects fuel prompt w line rest Hin).
    apply not_accepted_literal. exact Hno.
  - intros bad good rest v _ Hbad Hgood Hin Hfuel.
    apply (read_int_many prompt bad fuel w good rest v); try assumption.
    + eapply Forall_impl; [exact Hbad|]. intros l Hl.
      apply not_accepted_literal. exact Hl.
    + apply py_int_iff. exact Hgood.
  - apply benign_read_int.
Qed.

Lemma read_int_accepts_exactly_witness :
  NimDriver._read_int 3 NimDriver.pile_prompt
    (set_input (feed ["abc" +:+ nl; "1__0" +:+ nl] (Feed (" -1_2 " +:+ nl) Silent))
       start) =
  (Ok (-12),
   set_input Silent
     (set_written
        [prompt_line NimDriver.pile_prompt; NimDriver.not_an_integer;
         prompt_line NimDriver.pile_prompt; NimDriver.not_an_integer;
         prompt_line NimDriver.pile_prompt] start)).
Proof.
  set (w := set_input _ start).
  destruct (read_int_accepts_exactly 3 NimDriver.pile_prompt w)
    as (_ & _ & _ & Hmany & _).
  apply (Hmany ["abc" +:+ nl; "1__0" +:+ nl] (" -1_2 " +:+ nl) Silent (-12)).
  - cbn [app].
    repeat (apply List.Forall_cons;
            [vm_compute; intros H; discriminate H|]).
    apply List.Forall_nil.
  - repeat constructor; intros v (Hu & Hc & _); vm_compute in Hu, Hc;
      discriminate.
  - repeat split.
  - reflexivity.
  - cbn. lia.
Defined.




(** * Further properties of the engine *)

Lemma total_insert (l : list Z) :
  forall (k : nat) (v x : Z),
    l !! k = Some v -> total (<[k := x]> l) = total l - v + x.
Proof.
  induction l as [|y l IH]; intros k v x Hk; [discriminate|].
  destruct k as [|k]; cbn in Hk.
  - injection Hk as ->.
    change (<[0%nat := x]> (v :: l)) with (x :: l).
    rewrite !total_cons. lia.
  - change (<[S k := x]> (y :: l)) with (y :: <[k := x]> l).
    rewrite !total_cons, (IH k v x Hk). lia.
Qed.

(** X1: A call of [play] that returns took a positive amount, and the sum of
    the piles went down by exactly that amount, whichever way the pile was
    addressed; nothing but the piles changed. *)
Theorem play_lowers_total (w w' : world) (pile amount : Z) :
  Nim.play pile amount w = (Ok tt, w') ->
  0 < amount /\
  total (piles w') = total (piles w) - amount /\
  length (piles w') = length (piles w) /\
  w' = set_piles (piles w') w.
Proof.
  intros Hplay.
  destruct (play_ok _ _ _ _ Hplay) as (k & v & _ & Hv & Ha & ->).
  cbn [piles set_piles]. rewrite (total_insert _ k v _ Hv), length_insert.
  repeat split; lia.
Qed.

Lemma play_lowers_total_witness :
  0 < 2 /\
  total [3; 4; 3] = total (piles start) - 2 /\
  length [3; 4; 3] = length (piles start) /\
  set_piles [3; 4; 3] start = set_piles [3; 4; 3] start.
Proof.
  apply (play_lowers_total start (set_piles [3; 4; 3] start) (-1) 2).
  reflexivity.
Defined.

(** X2: [move_is_valid], case by case: it says yes exactly for a positive
    amount and a pile index from [-len] to [len - 1] whose pile, found by
    Python's index rule, holds the amount; it raises exactly for a positive
    amount and a pile index below [-len], and then an [IndexError]; it never
    changes the world. *)
Theorem move_is_valid_cases (w : world) (pile amount : Z) :
  ((Nim.move_is_valid pile amount w).1 = Ok true <->
   0 < amount /\
   - Z.of_nat (length (piles w)) <= pile < Z.of_nat (length (piles w)) /\
   exists k v,
     py_index (length (piles w)) pile = Some k /\
     piles w !! k = Some v /\ amount <= v) /\
  (forall e,
      (Nim.move_is_valid pile amount w).1 = Raise e <->
      e = IndexError /\ 0 < amount /\
      pile < - Z.of_nat (length (piles w))) /\
  (Nim.move_is_valid pile amount w).2 = w.
Proof.
  split; [|split; [|apply move_is_valid_world]].
  - split.
    + intros Hacc.
      destruct (move_is_valid_true _ _ _ Hacc) as (k & v & Hk & Hv & Ha).
      split; [lia|]. split; [|exists k, v; repeat split; auto; lia].
      destruct (Z_lt_le_dec pile (- Z.of_nat (length (piles w)))) as [Hlo|Hlo].
      { rewrite py_index_outside in Hk by lia. discriminate. }
      destruct (Z_lt_le_dec pile (Z.of_nat (length (piles w)))) as [Hhi|Hhi];
        [lia|].
      rewrite py_index_outside in Hk by lia. discriminate.
    + intros (Ha & Hp & k & v & Hk & Hv & Hle).
      rewrite move_is_valid_eq. cbn [fst].
      destruct (Z.gtb_spec amount 0); [|lia].
      destruct (Z.ltb_spec pile (Z.of_nat (length (piles w)))); [|lia].
      rewrite Hk, Hv. destruct (Z.geb_spec v amount); [reflexivity|lia].
  - intros e. split.
    + rewrite move_is_valid_eq. cbn [fst].
      destruct (Z.gtb_spec amount 0); [|discriminate].
      destruct (Z.ltb_spec pile (Z.of_nat (length (piles w)))); [|discriminate].
      destruct (py_index _ _) as [k|] eqn:Hk.
      * pose proof (py_index_lt _ _ _ Hk) as Hlt.
        destruct (lookup_lt_is_Some_2 (piles w) k Hlt) as [v Hv].
        rewrite Hv. discriminate.
      * intros [= <-]. repeat split; [lia|].
        destruct (Z_lt_le_dec pile (- Z.of_nat (length (piles w))));
          [assumption|].
        destruct (Z_lt_le_dec pile 0).
        -- rewrite py_index_back in Hk by lia. discriminate.
        -- rewrite py_index_front in Hk by lia. discriminate.
    + intros (-> & Ha & Hp). rewrite move_is_valid_before by lia. reflexivity.
Qed.

(** X3: On a board without a pile that is not empty [random_move] raises an
    [IndexError]; nothing is drawn and nothing changes. *)
Theorem random_move_on_empty_board (w : world) :
  Forall (fun x => x <= 0) (piles w) ->
  Nim.random_move w = (Raise IndexError, w).
Proof.
  intros Hall. unfold Nim.random_move.
  assert (Hnone : forall l i,
             Forall (fun x => x <= 0) l -> positive_indices i l = []).
  { clear. intros l. induction l as [|x l IH]; intros i Hl; [reflexivity|].
    inversion Hl as [|? ? Hx Hl']; subst. cbn [positive_indices].
    destruct (Z.gtb_spec x 0); [lia|]. apply IH. exact Hl'. }
  rewrite (Hnone _ 0 Hall). reflexivity.
Qed.

Lemma random_move_on_empty_board_witness :
  Nim.random_move (set_piles [0; 0; 0] start)
  = (Raise IndexError, set_piles [0; 0; 0] start).
Proof.
  apply (random_move_on_empty_board (set_piles [0; 0; 0] start)).
  repeat constructor; lia.
Defined.

Lemma play_accepted (move : Z * Z) (w : world) :
  accepted move w -> exists w', Nim.play move.1 move.2 w = (Ok tt, w').
Proof.
  intros Hacc. unfold accepted in Hacc. rewrite play_eq, Hacc.
  destruct (move_is_valid_true _ _ _ Hacc) as (k & v & -> & -> & _). eauto.
Qed.

(** X4: Whatever [random_move] returns, the predicate accepts it and [play]
    applies it: the sum of the piles goes down by the amount returned. *)
Theorem random_move_then_play (w w1 : world) (move : Z * Z) :
  Nim.random_move w = (Ok move, w1) ->
  accepted move w1 /\
  exists w2,
    Nim.play move.1 move.2 w1 = (Ok tt, w2) /\
    total (piles w2) = total (piles w) - move.2.
Proof.
  intros Hmove. pose proof (random_move_cases w) as Hc. rewrite Hmove in Hc.
  destruct move as [p a]. destruct Hc as (Hp & v & H0 & Hv & Hpos & Ha).
  assert (Hacc : accepted (p, a) w1).
  { unfold accepted. cbn [fst snd].
    rewrite (move_is_valid_front p a v w1) by (rewrite ?Hp; auto; lia).
    cbn [fst]. destruct (Z.geb_spec v a); [reflexivity|lia]. }
  split; [exact Hacc|].
  destruct (play_accepted (p, a) w1 Hacc) as [w2 Hplay]. cbn [fst snd] in *.
  exists w2. split; [exact Hplay|].
  destruct (play_ok _ _ _ _ Hplay) as (k & v' & _ & Hv' & _ & ->).
  cbn [piles set_piles fst snd]. rewrite (total_insert _ k v' _ Hv'), Hp. lia.
Qed.

Lemma random_move_then_play_witness :
  accepted (0, 1)
    (set_random {| tape := fun _ => 0; cursor := 2 |} start) /\
  exists w2,
    Nim.play 0 1 (set_random {| tape := fun _ => 0; cursor := 2 |} start)
      = (Ok tt, w2) /\
    total (piles w2) = total (piles start) - 1.
Proof.
  apply (random_move_then_play start
           (set_random {| tape := fun _ => 0; cursor := 2 |} start) (0, 1)).
  reflexivity.
Defined.

Lemma positive_indices_lookup (l : list Z) :
  forall (i : Z) (j : nat) (v : Z),
    l !! j = Some v -> 0 < v ->
    exists k : nat, positive_indices i l !! k = Some (i + Z.of_nat j).
Proof.
  induction l as [|y l IH]; intros i j v Hj Hv; [discriminate|].
  cbn [positive_indices]. destruct j as [|j]; cbn in Hj.
  - injection Hj as ->. destruct (Z.gtb_spec v 0); [|lia].
    exists 0%nat. cbn. f_equal. lia.
  - destruct (IH (i + 1) j v Hj Hv) as [k Hk].
    replace (i + Z.of_nat (S j)) with (i + 1 + Z.of_nat j) by lia.
    destruct (y >? 0); [exists (S k)|exists k]; exact Hk.
Qed.

(** X5: Every legal move can be drawn: for a pile that is not empty and an
    amount between one and its size there are draws of the random module
    with which [random_move] returns exactly that pile and amount. *)
Theorem random_move_reaches_every_move (w : world) (pile amount v : Z) :
  0 <= pile ->
  piles w !! Z.to_nat pile = Some v ->
  1 <= amount <= v ->
  exists first second,
    Nim.random_move (set_random (two_draws first second) w) =
    (Ok (pile, amount),
     set_random {| tape := tape (two_draws first second); cursor := 2 |} w).
Proof.
  intros Hp Hv Ha.
  destruct (positive_indices_lookup (piles w) 0 (Z.to_nat pile) v Hv)
    as [k Hk]; [lia|].
  rewrite Z.add_0_l, Z2Nat.id in Hk by lia.
  exists (Z.of_nat k), (amount - 1).
  unfold Nim.random_move. cbn [piles set_random].
  destruct (positive_indices 0 (piles w)) as [|y seq'] eqn:Hseq;
    [discriminate|].
  apply lookup_lt_Some in Hk as Hlt.
  unfold choice, randbelow. munfold. cbn [random set_random two_draws tape cursor].
  rewrite Z.mod_small by lia. rewrite Nat2Z.id, Hk.
  rewrite (getitem_front pile v) by (cbn [piles set_random]; auto).
  unfold randint. replace (v - 1 + 1) with v by lia.
  destruct (Z.gtb_spec v 0); [|lia].
  munfold. unfold randbelow. cbn [random set_random tape cursor].
  rewrite Z.mod_small by lia.
  replace (1 + (amount - 1)) with amount by lia. reflexivity.
Qed.

Lemma random_move_reaches_every_move_witness :
  exists first second,
    Nim.random_move (set_random (two_draws first second) start) =
    (Ok (2, 5),
     set_random {| tape := tape (two_draws first second); cursor := 2 |} start).
Proof.
  apply (random_move_reaches_every_move start 2 5 5);
    [lia|reflexivity|lia].
Defined.

Lemma plays_total (n : nat) (l : list Z) :
  plays n l -> state_ok l /\ total l + Z.of_nat n <= 12.
Proof.
  induction 1 as [|n w w' pile amount _ [Hok IH] Hplay].
  - split; [exact state_ok_init|]. cbn. lia.
  - split; [exact (play_state_ok _ _ _ _ Hok Hplay)|].
    destruct (play_ok _ _ _ _ Hplay) as (k & v & _ & Hv & Ha & ->).
    cbn [piles set_piles]. rewrite (total_insert _ k v _ Hv). lia.
Qed.

(** X6: A game is over after at most twelve moves: [n] calls of [play] that
    return, from the initial piles, leave at most [12 - n] objects, so there
    is no thirteenth, and after twelve every pile is empty. *)
Theorem game_has_at_most_twelve_moves (n : nat) (l : list Z) :
  plays n l ->
  total l + Z.of_nat n <= 12 /\
  (n <= 12)%nat /\
  (n = 12%nat -> Forall (fun x => x = 0) l).
Proof.
  intros Hplays. destruct (plays_total n l Hplays) as [[_ Hnonneg] Hsum].
  pose proof (total_nonneg l Hnonneg) as Hge.
  repeat split; [assumption|lia|].
  intros ->. apply (total_zero_iff l Hnonneg). lia.
Qed.

Lemma game_has_at_most_twelve_moves_witness :
  total [3; 4; 4] + Z.of_nat 1 <= 12 /\
  (1 <= 12)%nat /\
  (1%nat = 12%nat -> Forall (fun x => x = 0) [3; 4; 4]).
Proof.
  apply (game_has_at_most_twelve_moves 1 [3; 4; 4]).
  apply (plays_more 0 start (set_piles [3; 4; 4] start) 2 1).
  - exact plays_none.
  - reflexivity.
Defined.

(** * Further properties of the text *)

Lemma count_char_app (c : ascii) (s t : string) :
  count_char c (s +:+ t) = (count_char c s + count_char c t)%nat.
Proof.
  induction s as [|c' s IH]; [reflexivity|].
  change (String c' s +:+ t) with (String c' (s +:+ t)).
  cbn [count_char]. rewrite IH. lia.
Qed.

Lemma count_char_str_mul (c : ascii) (n : Z) :
  count_char c (str_mul c n) = Z.to_nat n.
Proof.
  unfold str_mul. induction (Z.to_nat n) as [|k IH]; [reflexivity|].
  cbn [Nat.iter nat_rect count_char]. change (nat_rect _ _ _ k) with
    (Nat.iter k (String c) EmptyString).
  rewrite IH, Ascii.eqb_refl. reflexivity.
Qed.

Lemma count_char_str_mul_other (c c' : ascii) (n : Z) :
  Ascii.eqb c c' = false -> count_char c (str_mul c' n) = 0%nat.
Proof.
  intros Hne. unfold str_mul. induction (Z.to_nat n) as [|k IH]; [reflexivity|].
  cbn [Nat.iter nat_rect count_char]. change (nat_rect _ _ _ k) with
    (Nat.iter k (String c') EmptyString).
  rewrite IH, Hne. reflexivity.
Qed.

(** A decimal numeral holds neither an asterisk nor a line feed. *)
Lemma count_char_numeral (d : Decimal.uint) :
  count_char "*"%char (NilEmpty.string_of_uint d) = 0%nat /\
  count_char "010"%char (NilEmpty.string_of_uint d) = 0%nat.
Proof. induction d; cbn; tauto. Qed.

Lemma count_char_render_pile (i : nat) (pile_amount : Z) :
  count_char "*"%char (render_pile i pile_amount) = Z.to_nat pile_amount /\
  count_char "010"%char (render_pile i pile_amount) = 1%nat.
Proof.
  unfold render_pile, str_of_nat. rewrite !count_char_app.
  destruct (count_char_numeral (Nat.to_uint i)) as [-> ->].
  rewrite count_char_str_mul.
  rewrite (count_char_str_mul_other "010"%char "*"%char) by reflexivity.
  split; cbn; lia.
Qed.

(** X7: [Nim.__str__] shows one line for each pile, and on it as many
    asterisks as the pile holds: the text has as many line feeds as there
    are piles, and, when no pile is negative, as many asterisks as there are
    objects.  A pile below zero is shown as an empty one. *)
Theorem render_counts (l : list Z) :
  count_char "010"%char (render l) = length l /\
  count_char "*"%char (render l) = foldr (fun x n => Z.to_nat x + n)%nat 0%nat l /\
  (Forall (fun x => 0 <= x) l ->
   Z.of_nat (count_char "*"%char (render l)) = total l).
Proof.
  unfold render.
  assert (Hcount : forall i,
    count_char "010"%char (render_from i l) = length l /\
    count_char "*"%char (render_from i l)
    = foldr (fun x n => Z.to_nat x + n)%nat 0%nat l).
  { induction l as [|x l IH]; intros i; [split; reflexivity|].
    cbn [render_from length foldr]. rewrite !count_char_app.
    destruct (count_char_render_pile i x) as [-> ->].
    destruct (IH (S i)) as [-> ->]. split; reflexivity. }
  destruct (Hcount 0%nat) as [Hnl Hstar].
  split; [exact Hnl|]. split; [exact Hstar|].
  rewrite Hstar. clear. induction 1 as [|x l Hx _ IH]; [reflexivity|].
  cbn [foldr]. rewrite total_cons, Nat2Z.inj_add, IH. lia.
Qed.

Lemma render_counts_witness :
  Z.of_nat (count_char "*"%char (render [3; 4; 5])) = total [3; 4; 5].
Proof.
  apply (proj2 (proj2 (render_counts [3; 4; 5]))). repeat constructor; lia.
Defined.

Lemma for_each_write (f : nat -> bytes) (l : list nat) :
  forall w : world,
    for_each l (fun i => write (f i);; drain;; sleep) w =
    (Ok tt, set_written (written w ++ map f l) w).
Proof.
  induction l as [|i l IH]; intros w.
  - cbn. rewrite app_nil_r. destruct w; reflexivity.
  - cbn [for_each map].
    erewrite bind_step; [|reflexivity]. rewrite IH.
    unfold set_written. cbn. rewrite <- app_assoc. reflexivity.
Qed.

Lemma fake_progress_bar_run (prompt : string) (w : world) :
  NimDriver._fake_progress_bar prompt w =
  (Ok tt, set_written (written w ++ progress_frames prompt) w).
Proof.
  unfold NimDriver._fake_progress_bar, progress_frames.
  erewrite bind_step;
    [|exact (for_each_write
               (fun i => cr +:+ prompt +:+ ": " +:+ NimDriver.dots i)
               (seq 0 15) w)].
  unfold write, set_written. cbn [written]. rewrite <- app_assoc. reflexivity.
Qed.

Lemma dots_cases (i : nat) :
  NimDriver.dots i = NimDriver.dots (i mod 3) /\
  (i mod 3 = 0 \/ i mod 3 = 1 \/ i mod 3 = 2)%nat.
Proof.
  split.
  - unfold NimDriver.dots. rewrite Nat.Div0.mod_mod. reflexivity.
  - pose proof (Nat.mod_upper_bound i 3). lia.
Qed.

(** X8: The progress bar is for show only: for any prompt, when it
    returns it has read nothing and left piles, input, random module and
    writer state alone, and has written sixteen pieces: fifteen frames, each
    a carriage return, the prompt, a colon and a field three characters wide
    with one, two or three asterisks in turn, and a final line feed. *)
Theorem fake_progress_bar_is_cosmetic (prompt : string) (w w' : world) :
  NimDriver._fake_progress_bar prompt w = (Ok tt, w') ->
  w' = set_written (written w ++ progress_frames prompt) w /\
  length (progress_frames prompt) = 16%nat /\
  progress_frames prompt !! 15%nat = Some nl /\
  (forall i : nat,
      (i < 15)%nat ->
      progress_frames prompt !! i
      = Some (cr +:+ prompt +:+ ": " +:+ NimDriver.dots i)) /\
  (forall i : nat,
      String.length (NimDriver.dots i) = 3%nat /\
      count_char "*"%char (NimDriver.dots i) = (i mod 3 + 1)%nat /\
      NimDriver.dots (i + 3) = NimDriver.dots i).
Proof.
  intros Hrun. rewrite fake_progress_bar_run in Hrun.
  split; [congruence|].
  split; [reflexivity|]. split; [reflexivity|]. split.
  - intros i Hi. unfold progress_frames.
    do 15 (destruct i as [|i]; [reflexivity|]). lia.
  - intros i. destruct (dots_cases i) as [Hd Hm].
    assert (Hper : NimDriver.dots (i + 3) = NimDriver.dots i).
    { unfold NimDriver.dots. replace (i + 3)%nat with (i + 1 * 3)%nat by lia.
      rewrite Nat.Div0.mod_add. reflexivity. }
    rewrite Hd. split; [|split; [|rewrite <- Hd; exact Hper]];
      destruct Hm as [-> | [-> | ->]]; reflexivity.
Qed.

Lemma fake_progress_bar_is_cosmetic_witness :
  set_written (progress_frames "Determining response") start
  = set_written (written start ++ progress_frames "Determining response")
      start /\
  progress_frames "Determining response" !! 4%nat
  = Some (cr +:+ "Determining response" +:+ ": " +:+ NimDriver.dots 4).
Proof.
  destruct (fake_progress_bar_is_cosmetic "Determining response" start
              (set_written (progress_frames "Determining response") start))
    as (Hw & _ & _ & Hframe & _).
  - vm_compute. reflexivity.
  - split; [exact Hw|]. apply Hframe. lia.
Defined.

(** * Further properties of integer literals *)

Lemma skip_spaces_app (s t : string) :
  skip_spaces t = EmptyString ->
  skip_spaces (s +:+ t) =
  match skip_spaces s with
  | EmptyString => EmptyString
  | String c s' => String c s' +:+ t
  end.
Proof.
  intros Ht. induction s as [|c s IH]; [exact Ht|].
  change (String c s +:+ t) with (String c (s +:+ t)). cbn [skip_spaces].
  destruct (is_space c); [exact IH|reflexivity].
Qed.

Lemma scan_digits_app (t : string) :
  skip_spaces t = EmptyString ->
  forall (s : string) (prev : ascii) (acc d : Z),
    scan_digits (s +:+ t) prev acc d =
    match scan_digits s prev acc d with
    | Some (v, n, rest) => Some (v, n, rest +:+ t)
    | None => None
    end.
Proof.
  intros Ht s. induction s as [|c s IH]; intros prev acc d.
  - change (EmptyString +:+ t) with t. cbn [scan_digits].
    destruct t as [|c t];
      [cbn [scan_digits]; destruct (is_underscore prev); reflexivity|].
    apply skip_spaces_cons_empty in Ht as [Hc _]. cbn [scan_digits].
    rewrite (space_not_digit c Hc), (space_not_underscore c Hc).
    destruct (is_underscore prev); reflexivity.
  - change (String c s +:+ t) with (String c (s +:+ t)). cbn [scan_digits].
    destruct (is_digit c); [apply IH|].
    destruct (is_underscore c).
    + destruct (is_underscore prev); [reflexivity|apply IH].
    + destruct (is_underscore prev); reflexivity.
Qed.

Lemma long_from_string_base_app (limit : Z) (s t : string) :
  skip_spaces t = EmptyString ->
  long_from_string_base limit (s +:+ t) = long_from_string_base limit s.
Proof.
  intros Ht. destruct s as [|c s].
  - change (EmptyString +:+ t) with t. destruct t as [|c t]; [reflexivity|].
    apply skip_spaces_cons_empty in Ht as [Hc _].
    unfold long_from_string_base. cbn [scan_digits].
    rewrite (space_not_underscore c Hc), (space_not_digit c Hc). reflexivity.
  - change (String c s +:+ t) with (String c (s +:+ t)).
    unfold long_from_string_base. destruct (is_underscore c); [reflexivity|].
    change (String c (s +:+ t)) with (String c s +:+ t).
    rewrite (scan_digits_app t Ht).
    destruct (scan_digits (String c s) "000"%char 0 0) as [[[v n] rest]|];
      [|reflexivity].
    destruct (n =? 0); [reflexivity|].
    rewrite (skip_spaces_app rest t Ht).
    destruct (skip_spaces rest); reflexivity.
Qed.

Lemma py_int_app (limit : Z) (line t : bytes) :
  skip_spaces t = EmptyString ->
  py_int limit (line +:+ t) = py_int limit line.
Proof.
  intros Ht. unfold py_int. rewrite (skip_spaces_app line t Ht).
  destruct (skip_spaces line) as [|c s]; [reflexivity|].
  assert (Hsign : take_sign (String c s +:+ t) =
                  ((take_sign (String c s)).1, (take_sign (String c s)).2 +:+ t)).
  { change (String c s +:+ t) with (String c (s +:+ t)). unfold take_sign.
    destruct (code c =? 43); [reflexivity|].
    destruct (code c =? 45); reflexivity. }
  rewrite Hsign. destruct (take_sign (String c s)) as [sign s']. cbn [fst snd].
  rewrite (long_from_string_base_app limit s' t Ht). reflexivity.
Qed.

(** X9: White space after a line, the line feed that ends it for one, changes
    nothing in what [int] makes of it: the same value, or the same
    [ValueError]. *)
Theorem py_int_ignores_trailing_space (limit : Z) (line t : bytes) :
  skip_spaces t = EmptyString ->
  py_int limit (line +:+ t) = py_int limit line.
Proof. apply py_int_app. Qed.

Lemma py_int_ignores_trailing_space_witness :
  py_int 4300 ("-7" +:+ (" " +:+ nl)) = py_int 4300 "-7".
Proof. apply (py_int_ignores_trailing_space 4300 "-7" (" " +:+ nl)). reflexivity. Defined.

Lemma take_digits_numeral (d : Decimal.uint) :
  forall acc : nat,
    take_digits (NilEmpty.string_of_uint d) (Z.of_nat acc) =
    (Z.of_nat (Nat.of_uint_acc d acc), EmptyString).
Proof.
  induction d as [|d IH|d IH|d IH|d IH|d IH|d IH|d IH|d IH|d IH|d IH];
    intros acc; [reflexivity|..];
    cbn [NilEmpty.string_of_uint take_digits Nat.of_uint_acc];
    rewrite <- IH; rewrite Nat.tail_mul_spec;
    match goal with
    | |- (if is_digit ?c then _ else _) = _ =>
        change (is_digit c) with true; cbv iota;
        let v := eval vm_compute in (digit_value c) in
        change (digit_value c) with v;
        f_equal; lia
    end.
Qed.

Lemma numeral_starts_with_digit (d : Decimal.uint) :
  d <> Decimal.Nil -> starts_with_digit (NilEmpty.string_of_uint d) = true.
Proof. destruct d; [congruence|reflexivity..]. Qed.

Lemma to_uint_nonnil (n : nat) : Nat.to_uint n <> Decimal.Nil.
Proof.
  rewrite <- (DecimalNat.Unsigned.of_to n) at 1.
  rewrite DecimalNat.Unsigned.to_of. apply DecimalFacts.unorm_nonnil.
Qed.

Lemma conventional_int_str_of_nat (n : nat) :
  conventional_int (str_of_nat n) = Some (Z.of_nat n).
Proof.
  unfold str_of_nat. pose proof (to_uint_nonnil n) as Hnil.
  pose proof (numeral_starts_with_digit _ Hnil) as Hstart.
  pose proof (take_digits_numeral (Nat.to_uint n) 0) as Htake.
  change (Nat.of_uint_acc (Nat.to_uint n) 0) with (Nat.of_uint (Nat.to_uint n))
    in Htake.
  rewrite DecimalNat.Unsigned.of_to in Htake.
  change (Z.of_nat 0) with 0 in Htake.
  destruct (NilEmpty.string_of_uint (Nat.to_uint n)) as [|c s] eqn:Hs;
    [discriminate|].
  cbn [starts_with_digit] in Hstart.
  unfold conventional_int. cbn [skip_spaces].
  rewrite (digit_not_space c Hstart). unfold take_sign.
  assert (Hplus : (code c =? 43) = false).
  { destruct (code c =? 43) eqn:E; [|reflexivity].
    destruct (plus_is_plain c E) as [Hd _]. congruence. }
  assert (Hminus : (code c =? 45) = false).
  { destruct (code c =? 45) eqn:E; [|reflexivity].
    destruct (minus_is_plain c E) as [Hd _]. congruence. }
  rewrite Hplus, Hminus. unfold plain_digits. rewrite Hstart, Htake.
  cbn [skip_spaces]. f_equal. lia.
Qed.

(** X10: The index [__str__] prints in brackets in front of a pile is read back
    by the prompt as that index: [int] of the decimal text of [i], with
    the line feed the peer ends the line with, is [i] (as long as the text
    is within the interpreter's limit on digits). *)
Theorem printed_index_reads_back (limit : Z) (i : nat) :
  within_limit limit (digit_count (str_of_nat i)) = true ->
  py_int limit (str_of_nat i +:+ nl) = Some (Z.of_nat i).
Proof.
  intros Hlim. rewrite py_int_app by reflexivity.
  apply conventional_accepted; [apply conventional_int_str_of_nat|exact Hlim].
Qed.

Lemma printed_index_reads_back_witness :
  py_int 4300 (str_of_nat 2 +:+ nl) = Some (Z.of_nat 2).
Proof. apply (printed_index_reads_back 4300 2). reflexivity. Defined.

(** * Further properties of the driver *)

Lemma quiet_ret {A} (a : A) : quiet (mret a).
Proof. intros w. cbn. repeat split. discriminate. Qed.

Lemma quiet_bind {A B} (c : M A) (k : A -> M B) :
  quiet c -> (forall a, quiet (k a)) -> quiet (c ≫= k).
Proof.
  intros Hc Hk w. munfold. destruct (Hc w) as (Hp & Hcl & He).
  destruct (c w) as [[a|e| |] w1]; cbn in *.
  - destruct (Hk a w1) as (Hp' & Hcl' & He').
    repeat split; [congruence|congruence|exact He'].
  - repeat split; try assumption. intros e' [= <-]. apply He. reflexivity.
  - repeat split; try assumption. discriminate.
  - repeat split; try assumption. discriminate.
Qed.

Lemma quiet_write (data : bytes) : quiet (write data).
Proof. intros w. cbn. repeat split. discriminate. Qed.

Lemma quiet_drain : quiet drain.
Proof. apply (quiet_ret tt). Qed.

Lemma quiet_sleep : quiet sleep.
Proof. apply (quiet_ret tt). Qed.

Lemma quiet_readline : quiet readline.
Proof.
  intros w. unfold readline. destruct (input w); cbn; repeat split;
    try discriminate; intros e [= <-]; auto.
Qed.

Lemma quiet_try_int (line : bytes) : quiet (try_int line).
Proof. intros w. cbn. repeat split. discriminate. Qed.

Lemma quiet_str_nim : quiet NimDriver.str_nim.
Proof. intros w. cbn. repeat split. discriminate. Qed.

Lemma quiet_out_of_fuel {A} : quiet (@out_of_fuel A).
Proof. intros w. cbn. repeat split. discriminate. Qed.

Lemma quiet_can_continue : quiet Nim.can_continue.
Proof. intros w. cbn. repeat split. discriminate. Qed.

Create HintDb quiet.
#[local] Hint Resolve quiet_ret quiet_write quiet_drain quiet_sleep
  quiet_readline quiet_try_int quiet_str_nim quiet_out_of_fuel
  quiet_can_continue : quiet.

Lemma quiet_read_int (fuel : nat) (prompt : string) :
  quiet (NimDriver._read_int fuel prompt).
Proof.
  induction fuel as [|fuel IH]; cbn [NimDriver._read_int].
  - apply quiet_out_of_fuel.
  - apply quiet_bind; [auto with quiet|]. intros _.
    apply quiet_bind; [auto with quiet|]. intros _.
    apply quiet_bind; [auto with quiet|]. intros line.
    apply quiet_bind; [auto with quiet|]. intros [v|]; [auto with quiet|].
    apply quiet_bind; [auto with quiet|]. intros _.
    apply quiet_bind; [auto with quiet|]. intros _. exact IH.
Qed.

Lemma quiet_ask_move (fuel : nat) : quiet (NimDriver._ask_move fuel).
Proof.
  unfold NimDriver._ask_move.
  apply quiet_bind; [apply quiet_read_int|]. intros pile.
  apply quiet_bind; [apply quiet_read_int|]. intros amount.
  apply quiet_ret.
Qed.

Lemma quiet_fake_progress_bar (prompt : string) :
  quiet (NimDriver._fake_progress_bar prompt).
Proof.
  intros w. rewrite fake_progress_bar_run. cbn. repeat split. discriminate.
Qed.

#[local] Hint Resolve quiet_read_int quiet_ask_move
  quiet_fake_progress_bar : quiet.

Lemma returns_write (data : bytes) : returns (write data).
Proof. intros w. exists tt. reflexivity. Qed.

Lemma returns_drain : returns drain.
Proof. intros w. exists tt. reflexivity. Qed.

Lemma returns_str_nim : returns NimDriver.str_nim.
Proof. intros w. eexists. reflexivity. Qed.

Lemma returns_fake_progress_bar (prompt : string) :
  returns (NimDriver._fake_progress_bar prompt).
Proof. intros w. exists tt. rewrite fake_progress_bar_run. reflexivity. Qed.

Create HintDb returns.
#[local] Hint Resolve returns_write returns_drain returns_str_nim
  returns_fake_progress_bar : returns.

Section Ensures.

Context {A B : Type}.

Lemma ensures_bind (P : world -> Prop) (c : M A) (R : A -> world -> Prop)
    (k : A -> M B) (Q : B -> world -> Prop) (X : stop -> world -> Prop) :
  ensures P c R X -> (forall a, ensures (R a) (k a) Q X) ->
  ensures P (c ≫= k) Q X.
Proof.
  intros Hc Hk w HP. munfold. specialize (Hc w HP).
  destruct (c w) as [[a|e| |] w1]; try assumption. exact (Hk a w1 Hc).
Qed.

Lemma ensures_weaken (P P' : world -> Prop) (c : M A)
    (Q Q' : A -> world -> Prop) (X X' : stop -> world -> Prop) :
  ensures P' c Q' X' -> (forall w, P w -> P' w) ->
  (forall a w, Q' a w -> Q a w) -> (forall s w, X' s w -> X s w) ->
  ensures P c Q X.
Proof.
  intros Hc HP HQ HX w Hw. specialize (Hc w (HP w Hw)).
  destruct (c w) as [[a|e| |] w1]; auto.
Qed.

(** A quiet command in front: the rest starts from the same piles and
    flag; if the command stops, they are untouched. *)
Lemma ensures_quiet_then (l : list Z) (b : bool) (c : M A) (k : A -> M B)
    (Q : B -> world -> Prop) :
  quiet c -> (forall a, ensures (at_state l b) (k a) Q (stopped l b)) ->
  ensures (at_state l b) (c ≫= k) Q (stopped l b).
Proof.
  intros Hc Hk w [Hp Hcl]. munfold. destruct (Hc w) as (Hp' & Hcl' & He).
  destruct (c w) as [[a|e| |] w1]; cbn in *.
  - apply Hk. split; congruence.
  - split; [split; congruence|]. cbn. destruct (He e eq_refl); auto.
  - split; [split; congruence|exact I].
  - split; [split; congruence|exact I].
Qed.

(** A quiet command that returns in front: nothing to show for stops. *)
Lemma ensures_returns_then (l : list Z) (b : bool) (c : M A) (k : A -> M B)
    (Q : B -> world -> Prop) (X : stop -> world -> Prop) :
  quiet c -> returns c ->
  (forall a, ensures (at_state l b) (k a) Q X) ->
  ensures (at_state l b) (c ≫= k) Q X.
Proof.
  intros Hc Hr Hk w [Hp Hcl]. munfold. destruct (Hc w) as (Hp' & Hcl' & _).
  destruct (Hr w) as [a Ha].
  destruct (c w) as [[a'|e| |] w1]; cbn in *; try discriminate.
  apply Hk. split; congruence.
Qed.

End Ensures.

Lemma ensures_ret {A} (a : A) (Q : A -> world -> Prop)
    (X : stop -> world -> Prop) :
  ensures (Q a) (mret a) Q X.
Proof. intros w HQ. exact HQ. Qed.

Lemma ensures_move_is_valid (l : list Z) (b : bool) (move : Z * Z) :
  ensures (at_state l b) (Nim.move_is_valid move.1 move.2)
    (fun ok w' => at_state l b w' /\
                  (Nim.move_is_valid move.1 move.2 w').1 = Ok ok)
    (stopped l b).
Proof.
  intros w Hat. pose proof (move_is_valid_world move.1 move.2 w) as Hw.
  pose proof (move_is_valid_eq move.1 move.2 w) as Heq.
  destruct (Nim.move_is_valid move.1 move.2 w) as [r w1] eqn:E.
  cbn in Hw. subst w1. destruct r as [ok|e| |].
  - split; [exact Hat|]. rewrite E. reflexivity.
  - split; [exact Hat|]. right. right. injection Heq as Heq.
    destruct (move.2 >? 0); [|discriminate].
    destruct (move.1 <? _); [|discriminate].
    destruct (py_index _ _) as [k|]; [|congruence].
    destruct (piles w !! k); congruence.
  - split; [exact Hat|exact I].
  - split; [exact Hat|exact I].
Qed.

Lemma ensures_round_until_valid (l : list Z) (b : bool) (fuel : nat) :
  forall move,
    ensures (at_state l b) (NimDriver._round_until_valid fuel move)
      (fun move' w' => at_state l b w' /\ accepted move' w')
      (stopped l b).
Proof.
  induction fuel as [|fuel IH]; intros move;
    cbn [NimDriver._round_until_valid].
  - intros w Hat. split; [exact Hat|exact I].
  - eapply ensures_bind; [apply ensures_move_is_valid|]. intros [|].
    + intros w HQ. exact HQ.
    + apply ensures_weaken with (P' := at_state l b)
        (Q' := fun move' w' => at_state l b w' /\ accepted move' w')
        (X' := stopped l b); [|intros w [H _]; exact H|auto|auto].
      apply ensures_quiet_then; [auto with quiet|]. intros _.
      apply ensures_quiet_then; [auto with quiet|]. intros move'.
      apply ensures_quiet_then; [auto with quiet|]. intros _.
      apply IH.
Qed.

Lemma random_move_closed (w : world) :
  closed (Nim.random_move w).2 = closed w.
Proof.
  unfold Nim.random_move, choice, randint, getitem, randbelow. munfold.
  repeat case_match; simplify_eq/=; reflexivity.
Qed.

Lemma ensures_play (l : list Z) (b : bool) (move : Z * Z)
    (X : stop -> world -> Prop) :
  state_ok l ->
  ensures (fun w => at_state l b w /\ accepted move w)
    (Nim.play move.1 move.2)
    (fun _ w' => closed w' = b /\ state_ok (piles w') /\
                 total (piles w') + 1 <= total l)
    X.
Proof.
  intros Hok w [[Hp Hcl] Hacc]. destruct (play_accepted move w Hacc) as [w' Hplay].
  rewrite Hplay. subst l.
  destruct (play_ok _ _ _ _ Hplay) as (k & v & _ & Hv & Ha & ->).
  cbn [piles closed set_piles]. split; [exact Hcl|]. split.
  - apply state_ok_insert; [exact Hok|lia].
  - rewrite (total_insert _ k v _ Hv). lia.
Qed.

Lemma ensures_random_move (l : list Z) (b : bool)
    (X : stop -> world -> Prop) :
  state_ok l -> total l <> 0 ->
  ensures (at_state l b) Nim.random_move
    (fun move w' => at_state l b w' /\ accepted move w') X.
Proof.
  intros [_ Hnonneg] Hne w [Hp Hcl]. subst l.
  destruct (total_nonzero_positive _ Hnonneg Hne) as (k0 & v0 & Hk0 & Hv0).
  destruct (random_move_ok w k0 v0 Hk0 Hv0)
    as (p & a & v & w' & Hmove & Hp' & H0 & Hv & Hpos & Ha).
  pose proof (random_move_closed w) as Hcl'. rewrite Hmove in *. cbn in Hcl'.
  split; [split; congruence|]. unfold accepted. cbn [fst snd].
  rewrite (move_is_valid_front p a v w') by (rewrite ?Hp'; auto; lia).
  cbn [fst]. destruct (Z.geb_spec v a); [reflexivity|lia].
Qed.

Lemma ensures_can_continue (l : list Z) (b : bool)
    (X : stop -> world -> Prop) :
  ensures (at_state l b) Nim.can_continue
    (fun go w' => at_state l b w' /\ go = negb (total l =? 0)) X.
Proof.
  intros w [Hp Hcl]. cbn. rewrite py_sum_total, Hp. repeat split; assumption.
Qed.

Lemma ensures_round_tail (l : list Z) (b : bool) (X : stop -> world -> Prop) :
  state_ok l -> ensures (at_state l b) round_tail (tail_result l b 0) X.
Proof.
  intros Hok. pose proof (total_nonneg l (proj2 Hok)) as Hge.
  unfold round_tail.
  apply ensures_returns_then; [auto with quiet|auto with returns|]. intros s.
  apply ensures_returns_then; [auto with quiet|auto with returns|]. intros _.
  apply ensures_returns_then; [auto with quiet|auto with returns|]. intros _.
  apply ensures_returns_then; [auto with quiet|auto with returns|]. intros _.
  eapply ensures_bind; [apply ensures_can_continue|]. intros go.
  destruct (Z.eqb_spec (total l) 0) as [Hzero|Hne].
  - intros w [Hat ->]. cbn [negb]. munfold. unfold write, drain, ret.
    cbn [set_written piles closed].
    destruct Hat as [Hp Hcl]. unfold tail_result.
    cbn [set_written piles closed]. rewrite Hp.
    repeat split; try assumption; try (apply Hok); try discriminate; try lia.
  - intros w [Hat ->]. cbn [negb]. revert w Hat.
    change (ensures (at_state l b)
              (Nim.random_move ≫= fun move =>
               Nim.play move.1 move.2 ≫= fun _ =>
               Nim.can_continue ≫= fun go_on =>
               if negb go_on
               then NimDriver.str_nim ≫= fun s =>
                    write s ≫= fun _ =>
                    write NimDriver.computer_won ≫= fun _ =>
                    drain ≫= fun _ => mret false
               else mret true)
              (tail_result l b 0) X).
    eapply ensures_bind; [apply (ensures_random_move l b X Hok Hne)|].
    intros move.
    eapply ensures_bind; [apply (ensures_play l b move X Hok)|]. intros u.
    intros w (Hcl & Hok' & Hle).
    pose proof (total_nonneg _ (proj2 Hok')) as Hge'.
    munfold. unfold Nim.can_continue. rewrite py_sum_total.
    destruct (Z.eqb_spec (total (piles w)) 0) as [Hz|Hnz];
      unfold write, drain, NimDriver.str_nim, ret;
      cbn [negb set_written piles closed];
      unfold tail_result; cbn [set_written piles closed];
      repeat split; try assumption;
      try apply Hok'; try discriminate; try lia; try congruence.
Qed.

Lemma round_unfold (fuel : nat) :
  NimDriver._round fuel =
  (NimDriver.str_nim ≫= fun s =>
   write s ≫= fun _ =>
   drain ≫= fun _ =>
   NimDriver._ask_move fuel ≫= fun move =>
   drain ≫= fun _ =>
   NimDriver._round_until_valid fuel move ≫= fun move =>
   Nim.play move.1 move.2 ≫= fun _ => round_tail).
Proof. unfold NimDriver._round, round_tail. reflexivity. Qed.

(** One round, run from piles [l] that are in order: when it returns, the
    flag tells whether objects remain, at least one object is gone, two when
    the game goes on; when it stops, piles and closed flag are untouched and
    what was raised came from the transport or from an index. *)
Lemma ensures_round (l : list Z) (b : bool) (fuel : nat) :
  state_ok l ->
  ensures (at_state l b) (NimDriver._round fuel) (tail_result l b 1)
    (stopped l b).
Proof.
  intros Hok. rewrite round_unfold.
  apply ensures_quiet_then; [auto with quiet|]. intros s.
  apply ensures_quiet_then; [auto with quiet|]. intros _.
  apply ensures_quiet_then; [auto with quiet|]. intros _.
  apply ensures_quiet_then; [auto with quiet|]. intros move0.
  apply ensures_quiet_then; [auto with quiet|]. intros _.
  eapply ensures_bind; [apply ensures_round_until_valid|]. intros move.
  eapply ensures_bind; [apply (ensures_play l b move (stopped l b) Hok)|].
  intros u w (Hcl & Hok' & Hle).
  pose proof (ensures_round_tail (piles w) b (stopped l b) Hok' w
                (conj eq_refl Hcl)) as Htail.
  destruct (round_tail w) as [[go|e| |] w']; try assumption.
  destruct Htail as (Hcl' & Hok'' & Hgo & Hle').
  repeat split; try assumption; try apply Hok''; try apply Hgo.
  destruct go; lia.
Qed.

Lemma ensures_run (A : Type) (P : world -> Prop) (c : M A)
    (Q : A -> world -> Prop) (X : stop -> world -> Prop) (w : world) :
  ensures P c Q X -> P w ->
  (forall a, (c w).1 = Ok a -> Q a (c w).2) /\
  (forall e, (c w).1 = Raise e -> X (Raised e) (c w).2) /\
  ((c w).1 = Suspended -> X Waiting (c w).2) /\
  ((c w).1 = OutOfFuel -> X Exhausted (c w).2).
Proof.
  intros Hc HP. specialize (Hc w HP).
  destruct (c w) as [[a|e| |] w']; cbn; repeat split;
    try discriminate; intros; simplify_eq; assumption.
Qed.

(** X11: What [_round] tells its caller is whether the game goes on: a round
    that returns from piles in order returns true exactly when objects
    remain, and false exactly when every pile is empty. *)
Theorem round_flag_tells_objects_remain (fuel : nat) (w : world) (go : bool) :
  state_ok (piles w) ->
  (NimDriver._round fuel w).1 = Ok go ->
  (go = true <-> total (piles (NimDriver._round fuel w).2) <> 0) /\
  (go = false <->
   Forall (fun x => x = 0) (piles (NimDriver._round fuel w).2)).
Proof.
  intros Hok Hret.
  destruct (ensures_run _ _ _ _ _ w
              (ensures_round (piles w) (closed w) fuel Hok)
              (conj eq_refl eq_refl)) as (Hres & _).
  destruct (Hres go Hret) as (_ & Hok' & Hgo & _).
  split; [exact Hgo|].
  rewrite <- (total_zero_iff _ (proj2 Hok')).
  destruct go; split; try discriminate; try reflexivity.
  - intros Hz. destruct (proj1 Hgo eq_refl Hz).
  - intros _. destruct (Z.eq_dec (total (piles (NimDriver._round fuel w).2)) 0)
      as [Hz|Hnz]; [exact Hz|]. apply Hgo in Hnz. discriminate.
Qed.

Lemma round_flag_tells_objects_remain_witness :
  (true = true <-> total (piles (NimDriver._round 1 one_move_world).2) <> 0) /\
  (true = false <->
   Forall (fun x => x = 0) (piles (NimDriver._round 1 one_move_world).2)).
Proof.
  apply (round_flag_tells_objects_remain 1 one_move_world true).
  - exact state_ok_init.
  - vm_compute. reflexivity.
Defined.

(** X12: Every round that returns has taken objects away: at least one, and at
    least two, one by each player, when the game goes on; no pile has gone
    below zero and there are still three. *)
Theorem round_takes_objects (fuel : nat) (w : world) (go : bool) :
  state_ok (piles w) ->
  (NimDriver._round fuel w).1 = Ok go ->
  state_ok (piles (NimDriver._round fuel w).2) /\
  total (piles (NimDriver._round fuel w).2) + 1 <= total (piles w) /\
  (go = true ->
   total (piles (NimDriver._round fuel w).2) + 2 <= total (piles w)).
Proof.
  intros Hok Hret.
  destruct (ensures_run _ _ _ _ _ w
              (ensures_round (piles w) (closed w) fuel Hok)
              (conj eq_refl eq_refl)) as (Hres & _).
  destruct (Hres go Hret) as (_ & Hok' & _ & Hle).
  split; [exact Hok'|]. destruct go; split; try lia; discriminate.
Qed.

Lemma round_takes_objects_witness :
  state_ok (piles (NimDriver._round 1 one_move_world).2) /\
  total (piles (NimDriver._round 1 one_move_world).2) + 1
    <= total (piles one_move_world) /\
  (true = true ->
   total (piles (NimDriver._round 1 one_move_world).2) + 2
     <= total (piles one_move_world)).
Proof.
  apply (round_takes_objects 1 one_move_world true).
  - exact state_ok_init.
  - vm_compute. reflexivity.
Defined.

(** X13: A round that raises an [IndexError] has not touched the game: the
    error is the predicate's, raised on the peer's answers before any move
    is applied, so piles and closed flag are as before the round. *)
Theorem round_index_error_keeps_the_game (fuel : nat) (w : world) :
  state_ok (piles w) ->
  (NimDriver._round fuel w).1 = Raise IndexError ->
  piles (NimDriver._round fuel w).2 = piles w /\
  closed (NimDriver._round fuel w).2 = closed w.
Proof.
  intros Hok Hraise.
  destruct (ensures_run _ _ _ _ _ w
              (ensures_round (piles w) (closed w) fuel Hok)
              (conj eq_refl eq_refl)) as (_ & Hstop & _).
  destruct (Hstop IndexError Hraise) as [[Hp Hcl] _]. auto.
Qed.

Lemma round_index_error_keeps_the_game_witness :
  piles (NimDriver._round 1
           (set_input (Feed ("-4" +:+ nl) (Feed ("1" +:+ nl) Silent))
              start)).2 = piles start /\
  closed (NimDriver._round 1
            (set_input (Feed ("-4" +:+ nl) (Feed ("1" +:+ nl) Silent))
               start)).2 = closed start.
Proof.
  apply (round_index_error_keeps_the_game 1
           (set_input (Feed ("-4" +:+ nl) (Feed ("1" +:+ nl) Silent)) start)).
  - exact state_ok_init.
  - vm_compute. reflexivity.
Defined.

(** The loop of the session, run from piles in order: it returns only with
    every pile empty; however it ends, the closed flag is untouched. *)
Lemma ensures_driver_play (b : bool) (fuel : nat) :
  ensures (fun w => closed w = b /\ state_ok (piles w))
    (NimDriver.play fuel)
    (fun _ w' => closed w' = b /\ Forall (fun x => x = 0) (piles w'))
    (fun s w' => closed w' = b /\ state_ok (piles w') /\ transport_or_index s).
Proof.
  induction fuel as [|fuel IH]; intros w [Hcl Hok]; cbn [NimDriver.play].
  - cbn. auto.
  - munfold.
    pose proof (ensures_round (piles w) b (S fuel) Hok w (conj eq_refl Hcl))
      as Hround.
    destruct (NimDriver._round (S fuel) w) as [[go|e| |] w1].
    + destruct Hround as (Hcl1 & Hok1 & Hgo & _). destruct go.
      * exact (IH w1 (conj Hcl1 Hok1)).
      * cbn. split; [exact Hcl1|].
        apply (total_zero_iff _ (proj2 Hok1)).
        destruct (Z.eq_dec (total (piles w1)) 0) as [Hz|Hnz]; [exact Hz|].
        apply Hgo in Hnz. discriminate.
    + destruct Hround as [[Hp Hcl1] He]. rewrite Hp. auto.
    + destruct Hround as [[Hp Hcl1] _]. rewrite Hp. cbn. auto.
    + destruct Hround as [[Hp Hcl1] _]. rewrite Hp. cbn. auto.
Qed.

Lemma cb_cases (fuel : nat) (w : world) :
  match NimDriver.cb fuel w with
  | (Ok _, w') => closed w' = true /\ Forall (fun x => x = 0) (piles w')
  | (Raise e, w') =>
      closed w' = closed w /\ state_ok (piles w') /\
      (e = ConnectionResetError \/ e = ValueError \/ e = IndexError)
  | (_, w') => closed w' = closed w /\ state_ok (piles w')
  end.
Proof.
  rewrite cb_unfold. munfold.
  pose proof (ensures_driver_play (closed w) fuel (set_piles Nim.init w)
                (conj eq_refl state_ok_init)) as Hplay.
  destruct (NimDriver.play fuel (set_piles Nim.init w)) as [[u|e| |] w1];
    cbn in Hplay |- *; tauto.
Qed.

(** X14: A session that returns has played the game to its end and closed the
    writer: every pile is empty and [close] was called. *)
Theorem session_returns_with_empty_piles (fuel : nat) (w : world) :
  (NimDriver.cb fuel w).1 = Ok tt ->
  Forall (fun x => x = 0) (piles (NimDriver.cb fuel w).2) /\
  closed (NimDriver.cb fuel w).2 = true.
Proof.
  intros Hret. pose proof (cb_cases fuel w) as Hc.
  destruct (NimDriver.cb fuel w) as [[u|e| |] w']; cbn in *;
    try discriminate. tauto.
Qed.

Lemma session_returns_with_empty_piles_witness :
  Forall (fun x => x = 0)
    (piles (NimDriver.cb 3 (set_input winning_peer start)).2) /\
  closed (NimDriver.cb 3 (set_input winning_peer start)).2 = true.
Proof.
  apply (session_returns_with_empty_piles 3 (set_input winning_peer start)).
  vm_compute. reflexivity.
Defined.



Lemma bind_raise {A B} (c : M A) (k : A -> M B) (w w' : world) (e : exn) :
  c w = (Raise e, w') -> (c ≫= k) w = (Raise e, w').
Proof. intros H. munfold. rewrite H. reflexivity. Qed.

Lemma bind_wait {A B} (c : M A) (k : A -> M B) (w w' : world) :
  c w = (Suspended, w') -> (c ≫= k) w = (Suspended, w').
Proof. intros H. munfold. rewrite H. reflexivity. Qed.

(** A round whose two questions are answered with integers: what is left
    is the loop, the move and the second half, in a world that has the
    display and the two prompts written. *)
Lemma round_after_questions (fuel : nat) (w : world) (l1 l2 : bytes)
    (rest : reader) (p a : Z) :
  input w = Feed l1 (Feed l2 rest) ->
  py_int (max_str_digits w) l1 = Some p ->
  py_int (max_str_digits w) l2 = Some a ->
  NimDriver._round (S fuel) w =
  (NimDriver._round_until_valid (S fuel) (p, a) ≫= fun move =>
   Nim.play move.1 move.2 ≫= fun _ => round_tail)
    (set_input rest
       (set_written
          (written w ++ [render (piles w);
                         prompt_line NimDriver.pile_prompt;
                         prompt_line NimDriver.amount_prompt]) w)).
Proof.
  intros Hin H1 H2. rewrite round_unfold.
  rewrite (bind_step NimDriver.str_nim _ w w (render (piles w)) eq_refl).
  rewrite (bind_step (write (render (piles w))) _ w
             (set_written (written w ++ [render (piles w)]) w) tt eq_refl).
  rewrite (bind_step drain _ _ _ tt eq_refl).
  rewrite (bind_step (NimDriver._ask_move (S fuel)) _ _ _ (p, a)
             (ask_move_two_lines fuel
                (set_written (written w ++ [render (piles w)]) w)
                l1 l2 rest p a Hin H1 H2)).
  rewrite (bind_step drain _ _ _ tt eq_refl).
  unfold set_input, set_written. cbn [written piles input random closed
                                       max_str_digits].
  rewrite <- app_assoc. reflexivity.
Qed.


(** X16: A peer can end its own session with an exception: when it answers the
    two questions with a pile index below minus the number of piles and a
    positive amount, the round raises the [IndexError] of the predicate
    right after the second prompt; no rejection is written and the game is
    untouched. *)
Theorem round_raises_on_far_negative_pile (fuel : nat) (w : world)
    (l1 l2 : bytes) (rest : reader) (p a : Z) :
  input w = Feed l1 (Feed l2 rest) ->
  py_int (max_str_digits w) l1 = Some p ->
  py_int (max_str_digits w) l2 = Some a ->
  p < - Z.of_nat (length (piles w)) ->
  0 < a ->
  NimDriver._round (S fuel) w =
  (Raise IndexError,
   set_input rest
     (set_written
        (written w ++ [render (piles w);
                       prompt_line NimDriver.pile_prompt;
                       prompt_line NimDriver.amount_prompt]) w)).
Proof.
  intros Hin H1 H2 Hp Ha.
  rewrite (round_after_questions fuel w l1 l2 rest p a Hin H1 H2).
  apply bind_raise. cbn [NimDriver._round_until_valid]. apply bind_raise.
  cbn [fst snd]. apply move_is_valid_before; [exact Hp|exact Ha].
Qed.

Lemma round_raises_on_far_negative_pile_witness :
  NimDriver._round 1
    (set_input (Feed ("-4" +:+ nl) (Feed ("1" +:+ nl) Silent)) start) =
  (Raise IndexError,
   set_input Silent
     (set_written
        [render Nim.init; prompt_line NimDriver.pile_prompt;
         prompt_line NimDriver.amount_prompt] start)).
Proof.
  apply (round_raises_on_far_negative_pile 0
           (set_input (Feed ("-4" +:+ nl) (Feed ("1" +:+ nl) Silent)) start)
           ("-4" +:+ nl) ("1" +:+ nl) Silent (-4) 1);
    [reflexivity|reflexivity|reflexivity|cbn; lia|lia].
Defined.





(** X18: There is no timeout: with a peer that sends nothing the session shows
    the piles, writes the first prompt and waits; nothing else is written,
    the game is new and the writer is not closed. *)
Theorem session_waits_for_a_silent_peer (fuel : nat) (w : world) :
  input w = Silent ->
  NimDriver.cb (S fuel) w =
  (Suspended,
   set_written
     (written w ++ [render Nim.init; prompt_line NimDriver.pile_prompt])
     (set_piles Nim.init w)).
Proof.
  intros Hin. rewrite cb_unfold. apply bind_wait. cbn [NimDriver.play].
  apply bind_wait. rewrite round_unfold.
  set (w0 := set_piles Nim.init w).
  rewrite (bind_step NimDriver.str_nim _ w0 w0 (render Nim.init) eq_refl).
  rewrite (bind_step (write (render Nim.init)) _ w0
             (set_written (written w0 ++ [render Nim.init]) w0) tt eq_refl).
  rewrite (bind_step drain _ _ _ tt eq_refl).
  apply bind_wait. unfold NimDriver._ask_move. apply bind_wait.
  cbn [NimDriver._read_int].
  rewrite (bind_step (write _) _ _ _ tt eq_refl).
  rewrite (bind_step drain _ _ _ tt eq_refl).
  apply bind_wait. unfold readline. subst w0.
  cbn [input set_written set_piles]. rewrite Hin.
  unfold set_written, set_piles.
  cbn [written piles input random closed max_str_digits].
  rewrite <- app_assoc. reflexivity.
Qed.

Lemma session_waits_for_a_silent_peer_witness :
  NimDriver.cb 1 start =
  (Suspended,
   set_written [render Nim.init; prompt_line NimDriver.pile_prompt] start).
Proof. apply (session_waits_for_a_silent_peer 0 start). reflexivity. Defined.

(** * The driver on a negative pile index *)

(** C8, at the inputs where the code departs from it: in a new game, when
    the peer answers pile [-4] and amount [1], a pair that is not a valid
    move, the round raises the [IndexError] of the predicate after the
    second prompt and writes no rejection; when it answers pile [-1] and
    amount [5], again no valid move, nothing is rejected either: five
    objects are taken from the last pile, the computer answers with a move
    of its own and the round returns true. *)
Theorem round_mishandles_negative_pile :
  NimDriver._round 1
    (set_input (Feed ("-4" +:+ nl) (Feed ("1" +:+ nl) Silent)) start) =
  (Raise IndexError,
   set_input Silent
     (set_written
        [render Nim.init; prompt_line NimDriver.pile_prompt;
         prompt_line NimDriver.amount_prompt] start)) /\
  NimDriver._round 1
    (set_input (Feed ("-1" +:+ nl) (Feed ("5" +:+ nl) Silent)) start) =
  (Ok true,
   set_random {| tape := fun _ => 0; cursor := 2 |}
     (set_input Silent
        (set_written
           ([render Nim.init; prompt_line NimDriver.pile_prompt;
             prompt_line NimDriver.amount_prompt; render [3; 4; 0]] ++
            progress_frames "Determining response")
           (set_piles [2; 4; 0] start)))).
Proof. split; vm_compute; reflexivity. Qed.

(** X19: A line above the stream's limit ends the session: [readline]
    raises a [ValueError] outside the [try] of [_read_int], so nothing is
    written after the prompt, no new prompt follows, and the error leaves
    [cb] with the writer not closed. *)
Theorem overlong_line_ends_the_session (fuel : nat) (prompt : string)
    (w : world) :
  input w = Overlong ->
  NimDriver._read_int (S fuel) prompt w =
    (Raise ValueError, set_written (written w ++ [prompt_line prompt]) w) /\
  NimDriver.cb (S fuel) w =
    (Raise ValueError,
     set_written
       (written w ++ [render Nim.init; prompt_line NimDriver.pile_prompt])
       (set_piles Nim.init w)).
Proof.
  intros Hin.
  assert (Hread : forall pr w0,
             input w0 = Overlong ->
             NimDriver._read_int (S fuel) pr w0 =
             (Raise ValueError,
              set_written (written w0 ++ [prompt_line pr]) w0)).
  { intros pr w0 Hin0. cbn [NimDriver._read_int].
    rewrite (bind_step (write _) _ _ _ tt eq_refl).
    rewrite (bind_step drain _ _ _ tt eq_refl).
    apply bind_raise. unfold readline. cbn [input set_written].
    rewrite Hin0. reflexivity. }
  split; [exact (Hread prompt w Hin)|].
  rewrite cb_unfold. apply bind_raise. cbn [NimDriver.play].
  apply bind_raise. rewrite round_unfold.
  set (w0 := set_piles Nim.init w).
  rewrite (bind_step NimDriver.str_nim _ w0 w0 (render Nim.init) eq_refl).
  rewrite (bind_step (write (render Nim.init)) _ w0
             (set_written (written w0 ++ [render Nim.init]) w0) tt eq_refl).
  rewrite (bind_step drain _ _ _ tt eq_refl).
  apply bind_raise. unfold NimDriver._ask_move. apply bind_raise.
  rewrite (Hread NimDriver.pile_prompt) by exact Hin.
  subst w0. unfold set_written, set_piles.
  cbn [written piles input random closed max_str_digits].
  rewrite <- app_assoc. reflexivity.
Qed.

Lemma overlong_line_ends_the_session_witness :
  NimDriver._read_int 1 NimDriver.pile_prompt (set_input Overlong start) =
    (Raise ValueError,
     set_input Overlong
       (set_written [prompt_line NimDriver.pile_prompt] start)) /\
  NimDriver.cb 1 (set_input Overlong start) =
    (Raise ValueError,
     set_input Overlong
       (set_written [render Nim.init; prompt_line NimDriver.pile_prompt]
          start)).
Proof.
  apply (overlong_line_ends_the_session 0 NimDriver.pile_prompt
           (set_input Overlong start)).
  reflexivity.
Defined.
